(** * Multi-account trading orchestrator: back-office core

    A shallow embedding of the services of [back_office_server/app]:
    - [utils/encryption.py]           (module [Vault]),
    - [services/websocket_manager.py] and the subscription handlers of
      [api/websocket.py]              (module [EventBus]),
    - [services/session_manager.py]   (module [SessionManager]),
    - [services/order_orchestrator.py] (module [OrderOrchestrator]),
    - [services/mt_api_client.py]     (module [ApiClient]),
    - [api/trading.py] and [schemas/order.py] (module [TradingApi]),
    - the typed emitters and the statistics of the websocket manager
      (module [BusEmitters]), [encrypt_sensitive_data] (module
      [VaultEncrypt]) and the session table of the session manager
      (module [SessionPool]).
    The properties follow the definitions, one module per component
    ([SizerFacts], [VaultFacts], [SweepFacts], [BusFacts],
    [OrchestratorFacts], [CollectionFacts]), and the seed scenarios of the
    specification are run on the model in [Scenarios].  The modules after
    them ([ApiClientFacts], [SnapshotFacts], [LedgerFacts], [OpeningFacts],
    [TradingApiFacts], [DeliveryFacts], [ConsistencyFacts], [LoginFacts],
    [RoundTripFacts], [PoolFacts]) hold further properties of the code.

    Conventions of the embedding.
    - A Python call that may raise returns a [res]: [Ok v] for a normal
      return, [Raise e] for an exception that leaves the function.
      [try ... except Exception] is [catch].
    - Instants ([datetime]) are integers counting microseconds, so that
      [(a - b).total_seconds() > 300] reads [a - b > 300 * 10^6].
    - Python floats that only flow through comparisons and [min] are
      rationals ([Q]).
    - The outcome of every call that leaves the process (broker HTTP API,
      database round trip, websocket send) is an argument of the function
      that makes the call, so that each theorem quantifies over every
      behaviour of the environment.
    - [asyncio.gather] runs its tasks in list order. *)

From Stdlib Require Import ZArith QArith Qminmax Lia List String Ascii.
From Stdlib.Strings Require Import Byte.
From stdpp Require Import gmap strings list pretty.

Local Open Scope string_scope.
Local Open Scope list_scope.
Local Open Scope Z_scope.

(** ** Exceptions and results *)

Inductive exn : Type :=
| KeyError (key : string)
| MatchTradeAPIError (msg : string)
| SQLAlchemyError (msg : string)
| MultipleResultsFound
| InvalidToken
| BinasciiError
| UnicodeDecodeError
| WebSocketError (msg : string).

Inductive res (A : Type) : Type :=
| Ok (a : A)
| Raise (e : exn).
Arguments Ok {A} a.
Arguments Raise {A} e.

#[global] Instance res_ret : MRet res := fun A a => Ok a.

#[global] Instance res_bind : MBind res := fun A B k r =>
  match r with
  | Ok a => k a
  | Raise e => Raise e
  end.

(** [try: r  except Exception as e: h e] *)
Definition catch {A} (r : res A) (h : exn -> res A) : res A :=
  match r with
  | Ok a => Ok a
  | Raise e => h e
  end.

Definition raises {A} (r : res A) : bool :=
  match r with Ok _ => false | Raise _ => true end.

(** [str(e)] *)
Definition str_exn (e : exn) : string :=
  match e with
  | KeyError k => "'" +:+ k +:+ "'"
  | MatchTradeAPIError m => m
  | SQLAlchemyError m => m
  | MultipleResultsFound => "Multiple rows were found when one or none was required"
  | InvalidToken => ""
  | BinasciiError => "Incorrect padding"
  | UnicodeDecodeError => "invalid start byte"
  | WebSocketError m => m
  end.

(** Truthiness of the Python values that occur under [or], [not] and [if]. *)
Definition truthy_str (s : option string) : bool :=
  match s with
  | Some s => negb (String.eqb s "")
  | None => false
  end.

Definition truthy_num (q : option Q) : bool :=
  match q with
  | Some q => negb (Qeq_bool q 0)
  | None => false
  end.

(** [a or b] *)
Definition or_str (a b : option string) : option string :=
  if truthy_str a then a else b.

Definition or_num (a b : option Q) : option Q :=
  if truthy_num a then a else b.

(** [min(a, b)]: the first argument unless the second is smaller. *)
Definition py_min (a b : Q) : Q :=
  if Qle_bool a b then a else b.

(** [asyncio.gather] with [return_exceptions=True]: every task yields
    either its return value or the exception it raised. *)
Definition gather {A B} (task : A -> res B) (items : list A) : list (res B) :=
  map task items.

(** ** utils/encryption.py *)

Module Vault.

(** The two libraries the module calls: [base64.b64decode], [bytes.decode]
    and [Fernet(key).decrypt].  [fernet_decrypt key] covers the constructor
    [Fernet(key)], which rejects a malformed key, and [cipher.decrypt]. *)
Record crypto_lib : Type := {
  b64decode : string -> res (list Byte.byte);
  decode : list Byte.byte -> res string;
  fernet_decrypt : string -> list Byte.byte -> res (list Byte.byte)
}.

Section Decrypt.

Variable lib : crypto_lib.

(** [getattr(settings, 'ENCRYPTION_KEY', None)] *)
Variable ENCRYPTION_KEY : option string.

(** [base64.b64decode(encrypted_data.encode()).decode()] *)
Definition base64_text (encrypted_data : string) : res string :=
  raw ← b64decode lib encrypted_data; decode lib raw.

(** The inner [try]/[except] of both fall-back branches. *)
Definition base64_fallback (encrypted_data : string) : res string :=
  catch (base64_text encrypted_data) (fun _ => Ok encrypted_data).

(** The body of the outer [try]: cipher, base64 storage format, decrypt. *)
Definition fernet_text (key encrypted_data : string) : res string :=
  encrypted_bytes ← b64decode lib encrypted_data;
  decrypted ← fernet_decrypt lib key encrypted_bytes;
  decode lib decrypted.

Definition decrypt_sensitive_data (encrypted_data : string) : res string :=
  if negb (truthy_str ENCRYPTION_KEY) then
    base64_fallback encrypted_data
  else
    let encryption_key := default "" ENCRYPTION_KEY in
    catch (fernet_text encryption_key encrypted_data)
          (fun _ => base64_fallback encrypted_data).

End Decrypt.

End Vault.

(** ** services/session_manager.py *)

Module SessionManager.

Record User : Type := {
  id : Z;
  email : string;
  encrypted_password : string;
  broker_id : string;
  is_active : bool
}.

(** The JSON object answered by the broker's login endpoint. *)
Record login_response : Type := {
  token : option string;
  trading_api_token : option string;
  tradingApiToken : option string;
  trading_account_id : option string;
  tradingAccountId : option string
}.

(** The dictionary returned by [login_user] (and, through its fall-backs,
    by [refresh_token]). *)
Record login_result : Type := {
  success : bool;
  user_id : option Z;
  error : option string;
  retry_count : option nat;
  session_id : option Z
}.

Definition failure (uid : option Z) (msg : string) (retries : option nat) : login_result :=
  {| success := false; user_id := uid; error := Some msg;
     retry_count := retries; session_id := None |}.

(** What one attempt of [login_user] meets outside the process, indexed by
    [retry_count]: the user row, the broker's answer, and the outcome of
    storing the session (select of the active session, update or insert,
    commit with rollback on failure, refresh), which yields [session.id]. *)
Record login_env : Type := {
  find_user : nat -> res (option User);
  api_login : nat -> string -> string -> string -> res login_response;
  store_session : nat -> res Z
}.

Section Login.

Variable lib : Vault.crypto_lib.
Variable ENCRYPTION_KEY : option string.
Variable max_retry_attempts : nat.
Variable env : login_env.

(** The body of the [try] of [login_user]. *)
Definition login_attempt (uid : Z) (retry : nat) : res login_result :=
  found ← find_user env retry;
  match found with
  | None => Ok (failure (Some uid) "User not found" None)
  | Some user =>
      if negb (is_active user) then
        Ok (failure (Some uid) "User is not active" None)
      else
        password ← Vault.decrypt_sensitive_data lib ENCRYPTION_KEY
                     (encrypted_password user);
        login ← api_login env retry (email user) password (broker_id user);
        let tok := token login in
        let trading := or_str (trading_api_token login) (tradingApiToken login) in
        if negb (truthy_str tok) || negb (truthy_str trading) then
          Raise (MatchTradeAPIError "Missing tokens in login response")
        else
          sid ← store_session env retry;
          Ok {| success := true; user_id := Some uid; error := None;
                retry_count := None; session_id := Some sid |}
  end.

(** [login_user] from attempt [retry] on, with [remaining] standing for
    [max_retry_attempts - retry]: the test [retry_count < max_retry_attempts]
    is [remaining <> 0]. *)
Fixpoint login_user_from (remaining : nat) (uid : Z) (retry : nat) : login_result :=
  match login_attempt uid retry with
  | Ok r => r
  | Raise (MatchTradeAPIError msg) =>
      match remaining with
      | S remaining' => login_user_from remaining' uid (S retry)
      | O => failure (Some uid) msg (Some retry)
      end
  | Raise e => failure (Some uid) (str_exn e) None
  end.

Definition login_user (uid : Z) (retry_count : nat) : login_result :=
  login_user_from (max_retry_attempts - retry_count)%nat uid retry_count.

End Login.





Record UserSession : Type := {
  us_id : Z;
  us_user_id : Z;
  us_token : string;
  us_trading_api_token : string;
  us_trading_account_id : option string;
  us_login_at : Z;
  expires_at : option Z;
  us_is_active : bool;
  last_refresh_at : option Z
}.








(** The dictionary built per row by [get_active_sessions]: it carries no
    ["token"] and no ["trading_api_token"] key.  [get_session_by_user_id]
    builds the same dictionary with both. *)
Record session_dict : Type := {
  sd_session_id : Z;
  sd_user_id : Z;
  sd_token : option string;
  sd_trading_api_token : option string
}.

Definition get_active_sessions (sessions_query : res (list UserSession))
    : res (list session_dict) :=
  sessions ← sessions_query;
  Ok (map (fun session =>
             {| sd_session_id := us_id session;
                sd_user_id := us_user_id session;
                sd_token := None;
                sd_trading_api_token := None |}) sessions).

Definition get_session_by_user_id (session_query : res (option UserSession))
    : res (option session_dict) :=
  found ← session_query;
  Ok (match found with
      | None => None
      | Some session =>
          Some {| sd_session_id := us_id session;
                  sd_user_id := us_user_id session;
                  sd_token := Some (us_token session);
                  sd_trading_api_token := Some (us_trading_api_token session) |}
      end).

End SessionManager.

(** ** services/websocket_manager.py and api/websocket.py *)

Module EventBus.

(** A [WebSocket] object, by identity. *)
Abbreviation WebSocket := positive (only parsing).

Inductive WebSocketState : Type := CONNECTING | CONNECTED | DISCONNECTED.

Record metadata : Type := {
  channel : string;
  connected_at : Z;
  messages_sent : nat
}.

Record ConnectionManager : Type := {
  active_connections : list WebSocket;
  channels : gmap string (gset WebSocket);
  connection_metadata : gmap WebSocket metadata
}.

(** [ConnectionManager.__init__] *)
Definition init : ConnectionManager :=
  {| active_connections := [];
     channels := <["dashboard" := ∅]> (<["trading" := ∅]> (<["positions" := ∅]>
                 (<["sessions" := ∅]> (<["all" := ∅]> ∅))));
     connection_metadata := ∅ |}.

(** [list.remove(x)] removes the first occurrence. *)
Fixpoint remove_first (x : WebSocket) (l : list WebSocket) : list WebSocket :=
  match l with
  | [] => []
  | y :: l' => if decide (x = y) then l' else y :: remove_first x l'
  end.

Definition disconnect (websocket : WebSocket) (m : ConnectionManager)
    : ConnectionManager :=
  {| active_connections := remove_first websocket (active_connections m);
     channels := (fun members => members ∖ {[websocket]}) <$> channels m;
     connection_metadata := delete websocket (connection_metadata m) |}.

(** [self.connection_metadata[websocket]["messages_sent"] += 1], guarded by
    [websocket in self.connection_metadata]. *)
Definition count_message (websocket : WebSocket)
    (md : gmap WebSocket metadata) : gmap WebSocket metadata :=
  alter (fun meta => {| channel := channel meta;
                        connected_at := connected_at meta;
                        messages_sent := S (messages_sent meta) |}) websocket md.

(** [sent] is the outcome of [websocket.send_json(message)]. *)
Definition send_personal_message (sent : res unit) (websocket : WebSocket)
    (m : ConnectionManager) : ConnectionManager :=
  match sent with
  | Ok _ =>
      {| active_connections := active_connections m;
         channels := channels m;
         connection_metadata := count_message websocket (connection_metadata m) |}
  | Raise _ => disconnect websocket m
  end.

(** [accepted] is the outcome of [websocket.accept()], [welcomed] that of
    sending the welcome message.  The second component is the exception
    that leaves [connect], if any. *)
Definition connect (accepted welcomed : res unit) (now : Z)
    (websocket : WebSocket) (chan : string) (m : ConnectionManager)
    : ConnectionManager * option exn :=
  match accepted with
  | Raise e => (m, Some e)
  | Ok _ =>
      let conns := active_connections m ++ [websocket] in
      let created := match channels m !! chan with
                     | None => <[chan := ∅]> (channels m)
                     | Some _ => channels m
                     end in
      let joined := alter (fun members => members ∪ {[websocket]}) chan created in
      match joined !! "all" with
      | None =>
          ({| active_connections := conns; channels := joined;
              connection_metadata := connection_metadata m |},
           Some (KeyError "all"))
      | Some everyone =>
          let m' := {| active_connections := conns;
                       channels := <["all" := everyone ∪ {[websocket]}]> joined;
                       connection_metadata :=
                         <[websocket := {| channel := chan; connected_at := now;
                                           messages_sent := 0 |}]>
                           (connection_metadata m) |} in
          (send_personal_message welcomed websocket m', None)
      end
  end.

(** The frames a client sends on its socket ([api/websocket.py]). *)
Inductive client_message : Type :=
| Ping (timestamp : option Z)
| Subscribe (chan : option string)
| Unsubscribe (chan : option string)
| GetStatistics
| UnknownType (message_type : option string)
| InvalidJSON.

(** [chan and chan in ws_manager.channels] *)
Definition known_channel (chan : option string) (m : ConnectionManager) : bool :=
  truthy_str chan && bool_decide (is_Some (channels m !! default "" chan)).

(** One iteration of the receive loop of [websocket_endpoint]; [replied] is
    the outcome of the [send_json] of the reply, when there is one. *)
Definition handle_message (replied : res unit) (msg : client_message)
    (websocket : WebSocket) (m : ConnectionManager) : ConnectionManager :=
  match msg with
  | Subscribe new_channel =>
      if known_channel new_channel m then
        send_personal_message replied websocket
          {| active_connections := active_connections m;
             channels := alter (fun members => members ∪ {[websocket]})
                               (default "" new_channel) (channels m);
             connection_metadata := connection_metadata m |}
      else m
  | Unsubscribe old_channel =>
      if known_channel old_channel m then
        send_personal_message replied websocket
          {| active_connections := active_connections m;
             channels := alter (fun members => members ∖ {[websocket]})
                               (default "" old_channel) (channels m);
             connection_metadata := connection_metadata m |}
      else m
  | Ping _ | GetStatistics | UnknownType _ | InvalidJSON =>
      send_personal_message replied websocket m
  end.

(** What [broadcast] observes of one connection: its [client_state]
    attribute, and how [send_json] under [asyncio.wait_for(..., 5.0)] ends. *)
Inductive state_probe : Type :=
| NoClientState
| ClientState (s : WebSocketState)
| ProbeRaises (e : exn).

Inductive send_outcome : Type :=
| Delivered
| TimedOut
| Failed (e : exn).

Record peer : Type := {
  probe : state_probe;
  send : send_outcome
}.

Definition _send_with_timeout (o : send_outcome) : res bool :=
  match o with
  | Delivered => Ok true
  | TimedOut => Ok false
  | Failed e => Raise e
  end.

(** The first loop of [broadcast]: [(valid_connections, disconnected)]. *)
Fixpoint check_states (peers : WebSocket -> peer) (connections : list WebSocket)
    : list WebSocket * list WebSocket :=
  match connections with
  | [] => ([], [])
  | connection :: rest =>
      let '(valid_connections, disconnected) := check_states peers rest in
      match probe (peers connection) with
      | NoClientState | ClientState CONNECTED =>
          (connection :: valid_connections, disconnected)
      | ClientState _ | ProbeRaises _ =>
          (valid_connections, connection :: disconnected)
      end
  end.

(** The loop over [zip(valid_connections, results)], threading the metadata
    and the [disconnected] list. *)
Fixpoint process_results (pairs : list (WebSocket * res bool))
    (md : gmap WebSocket metadata) (disconnected : list WebSocket)
    : gmap WebSocket metadata * list WebSocket :=
  match pairs with
  | [] => (md, disconnected)
  | (connection, result) :: rest =>
      match result with
      | Raise _ => process_results rest md (disconnected ++ [connection])
      | Ok true => process_results rest (count_message connection md) disconnected
      | Ok false => process_results rest md disconnected
      end
  end.

Definition broadcast (peers : WebSocket -> peer) (chan : string)
    (m : ConnectionManager) : ConnectionManager :=
  match channels m !! chan with
  | None => m
  | Some members =>
      let connections := elements members in
      match connections with
      | [] => m
      | _ =>
          let '(valid_connections, disconnected) := check_states peers connections in
          let results :=
            gather (fun c => _send_with_timeout (send (peers c))) valid_connections in
          let '(md, disconnected) :=
            process_results (zip valid_connections results)
                            (connection_metadata m) disconnected in
          foldl (fun acc connection => disconnect connection acc)
                {| active_connections := active_connections m;
                   channels := channels m;
                   connection_metadata := md |}
                disconnected
      end
  end.

(** The operations that change the bus. *)
Inductive operation : Type :=
| OpConnect (accepted welcomed : res unit) (now : Z) (websocket : WebSocket)
            (chan : string)
| OpMessage (replied : res unit) (msg : client_message) (websocket : WebSocket)
| OpDisconnect (websocket : WebSocket)
| OpPublish (peers : WebSocket -> peer) (chan : string).

Definition apply (op : operation) (m : ConnectionManager) : ConnectionManager :=
  match op with
  | OpConnect accepted welcomed now websocket chan =>
      fst (connect accepted welcomed now websocket chan m)
  | OpMessage replied msg websocket => handle_message replied msg websocket m
  | OpDisconnect websocket => disconnect websocket m
  | OpPublish peers chan => broadcast peers chan m
  end.

(** Membership of a subscriber in a channel. *)
Definition member (m : ConnectionManager) (chan : string) (websocket : WebSocket)
    : Prop :=
  exists members, channels m !! chan = Some members /\ websocket ∈ members.

(** E2: a subscriber in any channel is also in [all]. *)
Definition all_covers (m : ConnectionManager) : Prop :=
  forall chan websocket, member m chan websocket -> member m "all" websocket.

End EventBus.

(** ** services/order_orchestrator.py *)

Module OrderOrchestrator.

Import SessionManager.

(** *** Rows and the database session *)

Record Order : Type := {
  id : Z;
  user_id : Z;
  order_uuid : option string;
  symbol : string;
  side : string;
  quantity : option Q;
  entry_price : option Q;
  stop_loss : option Q;
  take_profit : option Q;
  status : option string;
  created_at : Z;
  executed_at : option Z;
  closed_at : option Z
}.

Record Trade : Type := {
  order_id : Z;
  t_user_id : Z;
  t_symbol : string;
  t_side : string;
  t_entry_price : Q;
  exit_price : Q;
  t_quantity : Q;
  profit_loss : Q;
  profit_loss_percent : option Q;
  commission : Q;
  duration_seconds : option Z;
  t_executed_at : option Z;
  t_closed_at : Z
}.

Record tables : Type := {
  orders : list Order;
  trades : list Trade
}.

(** An [AsyncSession]: [stored] is what is committed, [view] what the
    session reads and writes (queries flush pending changes first).
    [commit] makes the view the store; [rollback] drops the view. *)
Record db_session : Type := {
  stored : tables;
  view : tables
}.

Definition rollback (db : db_session) : db_session :=
  {| stored := stored db; view := stored db |}.

(** [outcome] is what the database answers to the [COMMIT]. *)
Definition commit (outcome : option exn) (db : db_session) : db_session * res unit :=
  match outcome with
  | None => ({| stored := view db; view := view db |}, Ok tt)
  | Some e => (db, Raise e)
  end.

(** Attribute assignment on a loaded [Order]: the row of that identity. *)
Definition write_order (o : Order) (db : db_session) : db_session :=
  {| stored := stored db;
     view := {| orders := map (fun x => if id x =? id o then o else x)
                              (orders (view db));
                trades := trades (view db) |} |}.

(** [self.db.add(trade)] *)
Definition add_trade (t : Trade) (db : db_session) : db_session :=
  {| stored := stored db;
     view := {| orders := orders (view db);
                trades := trades (view db) ++ [t] |} |}.

(** [self.db.add(order)]: the primary key is the next free one. *)
Definition next_order_id (db : db_session) : Z :=
  1 + foldr (fun o acc => Z.max (id o) acc) 0 (orders (view db)).

Definition add_order (o : Order) (db : db_session) : db_session :=
  {| stored := stored db;
     view := {| orders := orders (view db) ++ [o];
                trades := trades (view db) |} |}.

(** [result.scalar_one_or_none()] *)
Definition scalar_one_or_none {A} (rows : list A) : res (option A) :=
  match rows with
  | [] => Ok None
  | [row] => Ok (Some row)
  | _ => Raise MultipleResultsFound
  end.

(** [ORDER BY created_at DESC]: a stable insertion sort.  SQL leaves the
    order of rows with equal [created_at] to the database; here they keep
    the order in which the table lists them. *)
Fixpoint insert_desc (o : Order) (sorted : list Order) : list Order :=
  match sorted with
  | [] => [o]
  | x :: rest =>
      if created_at x <=? created_at o then o :: x :: rest
      else x :: insert_desc o rest
  end.

Definition order_by_created_at_desc (rows : list Order) : list Order :=
  foldr insert_desc [] rows.

Definition eqb_ostr (a b : option string) : bool :=
  match a, b with
  | Some a, Some b => String.eqb a b
  | None, None => true
  | _, _ => false
  end.

(** [select(Order).where(Order.symbol == symbol, Order.user_id == user_id,
    Order.status == "OPEN").order_by(Order.created_at.desc())], and
    [result.first()] read as the first [Order] of that result. *)
Definition open_candidates (uid : Z) (sym : string) (rows : list Order) : list Order :=
  filter (fun o => String.eqb (symbol o) sym && (user_id o =? uid)
                   && eqb_ostr (status o) (Some "OPEN") = true) rows.

Definition most_recent_open (uid : Z) (sym : string) (rows : list Order)
    : option Order :=
  head (order_by_created_at_desc (open_candidates uid sym rows)).

(** *** What the broker reports *)

(** An element of the list answered by [get_opened_positions]. *)
Record position : Type := {
  p_id : option string;
  p_uuid : option string;
  positionId : option string;
  p_symbol : option string;
  p_entry_price : option Q;
  openPrice : option Q;
  close_price : option Q;
  volume : option Q;
  profit : option Q;
  profitLoss : option Q
}.

(** The object answered by [close_position]. *)
Record close_result : Type := {
  closePrice : option Q;
  c_profit : option Q;
  c_profitLoss : option Q;
  c_commission : option Q
}.

(** [position.get("id") or position.get("uuid") or position.get("positionId")] *)
Definition position_id_of (p : position) : option string :=
  or_str (or_str (p_id p) (p_uuid p)) (positionId p).

(** [float(a or d.get(k, 0))] *)
Definition float_or (a b : option Q) : Q :=
  default 0%Q (or_num a (Some (default 0%Q b))).

(** What the database answers to the round trips of one [_record_trade] (or
    of one look-up of [_check_user_positions]): [None] for a normal answer. *)
Record db_faults : Type := {
  on_select : option exn;
  on_fallback : option exn;
  on_commit : option exn
}.

Definition no_faults : db_faults :=
  {| on_select := None; on_fallback := None; on_commit := None |}.

Definition query {A} (fault : option exn) (rows : A) : res A :=
  match fault with
  | None => Ok rows
  | Some e => Raise e
  end.

(** *** _calculate_position_size *)

Definition _calculate_position_size (balance default_volume : Q) : Q :=
  if Qlt_le_dec balance 1000 then py_min default_volume (1 # 100)
  else if Qlt_le_dec balance 5000 then py_min default_volume (5 # 100)
  else default_volume.

(** *** _record_trade *)

(** The look-up shared by [_record_trade] ([by_user = true]) and
    [_check_user_positions] ([by_user = false], whose first query does not
    filter on the user). *)
Definition find_order (faults : db_faults) (by_user : bool) (uid : Z)
    (p : position) (db : db_session) : res (option Order) :=
  let position_id := position_id_of p in
  rows ← query (on_select faults)
           (filter (fun o => eqb_ostr (order_uuid o) position_id
                             && (negb by_user || (user_id o =? uid)) = true)
                   (orders (view db)));
  order ← scalar_one_or_none rows;
  match order with
  | Some o => Ok (Some o)
  | None =>
      if truthy_str (p_symbol p) then
        rows ← query (on_fallback faults) (orders (view db));
        Ok (most_recent_open uid (default "" (p_symbol p)) rows)
      else Ok None
  end.

(** [int((now - executed_at).total_seconds())] *)
Definition whole_seconds (micro : Z) : Z := Z.quot micro 1000000.

Definition trade_of (uid : Z) (order : Order) (p : position) (c : close_result)
    (now : Z) : Trade :=
  let entry := float_or (p_entry_price p) (openPrice p) in
  let exit := float_or (close_price p) (closePrice c) in
  let vol := default 0%Q (volume p) in
  let pl := float_or (c_profit c) (c_profitLoss c) in
  {| order_id := id order;
     t_user_id := uid;
     t_symbol := symbol order;
     t_side := side order;
     t_entry_price := entry;
     exit_price := exit;
     t_quantity := vol;
     profit_loss := pl;
     profit_loss_percent :=
       if negb (Qeq_bool entry 0) && negb (Qeq_bool vol 0)
       then Some ((pl / (entry * vol)) * 100)%Q else None;
     commission := default 0%Q (c_commission c);
     duration_seconds :=
       match executed_at order with
       | Some at_ => Some (whole_seconds (now - at_))
       | None => None
       end;
     t_executed_at := executed_at order;
     t_closed_at := now |}.

(** The body of the [try] of [_record_trade]: the session afterwards and
    the exception that leaves the body, if any. *)
Definition record_trade_body (faults : db_faults) (now : Z) (uid : Z)
    (p : position) (c : close_result) (db : db_session) : db_session * res unit :=
  match find_order faults true uid p db with
  | Raise e => (db, Raise e)
  | Ok None => (db, Ok tt)
  | Ok (Some order) =>
      let position_id := position_id_of p in
      let closed :=
        {| id := id order; user_id := user_id order;
           order_uuid := if truthy_str position_id
                            && negb (truthy_str (order_uuid order))
                         then position_id else order_uuid order;
           symbol := symbol order; side := side order;
           quantity := quantity order; entry_price := entry_price order;
           stop_loss := stop_loss order; take_profit := take_profit order;
           status := Some "CLOSED";
           created_at := created_at order;
           executed_at := executed_at order;
           closed_at := Some now |} in
      let db1 := add_trade (trade_of uid closed p c now) (write_order closed db) in
      match commit (on_commit faults) db1 with
      | (db2, Ok _) => (db2, Ok tt)
      | (db2, Raise e) => (rollback db2, Raise e)
      end
  end.

(** [_record_trade]: the outer [except Exception] logs and returns. *)
Definition _record_trade (faults : db_faults) (now : Z) (uid : Z)
    (p : position) (c : close_result) (db : db_session) : db_session * res unit :=
  let '(db', r) := record_trade_body faults now uid p c db in
  (db', catch r (fun _ => Ok tt)).

(** *** The broker and the database, as seen by one signal or one tick *)

Record world : Type := {
  get_balance : session_dict -> res (option Q);
  open_position : session_dict -> option string -> string -> Q -> res position;
  get_opened_positions : session_dict -> res (list position);
  close_position : session_dict -> option string -> res close_result;
  order_commit : Z -> option exn;
  trade_faults : Z -> position -> db_faults;
  lookup_faults : Z -> position -> db_faults
}.

(** [session["token"]] and [session["trading_api_token"]], read before the
    [try] of every per-user coroutine. *)
Definition session_tokens (session : session_dict) : res (string * string) :=
  match sd_token session with
  | None => Raise (KeyError "token")
  | Some tok =>
      match sd_trading_api_token session with
      | None => Raise (KeyError "trading_api_token")
      | Some trading => Ok (tok, trading)
      end
  end.

(** Tasks gathered over one shared database session, run in list order. *)
Fixpoint run_tasks {S A B} (task : A -> S -> S * res B) (items : list A) (st : S)
    : S * list (res B) :=
  match items with
  | [] => (st, [])
  | item :: rest =>
      let '(st1, r) := task item st in
      let '(st2, rs) := run_tasks task rest st1 in
      (st2, r :: rs)
  end.

(** *** Opening *)

Record signal : Type := {
  action : string;
  s_symbol : option string;
  s_volume : Q;
  s_stop_loss : option Q;
  s_take_profit : option Q
}.

Record order_result : Type := {
  o_success : bool;
  o_user_id : option Z;
  o_order_id : option Z;
  o_order_uuid : option string;
  o_side : option string;
  o_volume : option Q;
  o_error : option string
}.

Definition order_failure (uid : option Z) (e : exn) : order_result :=
  {| o_success := false; o_user_id := uid; o_order_id := None;
     o_order_uuid := None; o_side := None; o_volume := None;
     o_error := Some (str_exn e) |}.

Definition _execute_order_for_user (w : world) (now : Z) (sym : option string)
    (side_ : string) (vol : Q) (sl tp : option Q)
    (session : session_dict) (db : db_session) : db_session * res order_result :=
  let uid := sd_user_id session in
  match session_tokens session with
  | Raise e => (db, Raise e)
  | Ok _ =>
      match get_balance w session with
      | Raise e => (db, Ok (order_failure (Some uid) e))
      | Ok balance_info =>
          let adjusted_volume :=
            _calculate_position_size (default 0%Q balance_info) vol in
          match open_position w session sym side_ adjusted_volume with
          | Raise e => (db, Ok (order_failure (Some uid) e))
          | Ok p =>
              let order :=
                {| id := next_order_id db; user_id := uid;
                   order_uuid := position_id_of p;
                   symbol := default "" sym;
                   side := if String.eqb side_ "BUY" then "LONG" else "SHORT";
                   quantity := Some adjusted_volume;
                   entry_price := Some (float_or (p_entry_price p) (openPrice p));
                   stop_loss := if truthy_num sl then sl else None;
                   take_profit := if truthy_num tp then tp else None;
                   status := Some "OPEN";
                   created_at := now;
                   executed_at := Some now;
                   closed_at := None |} in
              match commit (order_commit w uid) (add_order order db) with
              | (db1, Raise e) => (rollback db1, Ok (order_failure (Some uid) e))
              | (db1, Ok _) =>
                  (db1, Ok {| o_success := true; o_user_id := Some uid;
                              o_order_id := Some (id order);
                              o_order_uuid := order_uuid order;
                              o_side := Some side_;
                              o_volume := Some adjusted_volume;
                              o_error := None |})
              end
          end
      end
  end.

Record open_report : Type := {
  executed_count : nat;
  failed_count : nat;
  total_volume : Q;
  successful_orders : list order_result;
  failed_orders : list order_result
}.

(** The loop over [results] of [_execute_open_orders]. *)
Fixpoint tally (results : list (res order_result))
    : list order_result * list order_result * Q :=
  match results with
  | [] => ([], [], 0%Q)
  | result :: rest =>
      let '(successful_results, failed_results, total) := tally rest in
      match result with
      | Ok d =>
          if o_success d
          then (d :: successful_results, failed_results,
                (default 0%Q (o_volume d) + total)%Q)
          else (successful_results, d :: failed_results, total)
      | Raise e =>
          (successful_results, order_failure None e :: failed_results, total)
      end
  end.

Definition _execute_open_orders (w : world) (now : Z) (sig : signal)
    (sessions : list session_dict) (db : db_session) : db_session * open_report :=
  let side_ := if String.eqb (action sig) "OPEN_LONG" then "BUY" else "SELL" in
  let '(db', results) :=
    run_tasks (_execute_order_for_user w now (s_symbol sig) side_ (s_volume sig)
                 (s_stop_loss sig) (s_take_profit sig)) sessions db in
  let '(successful_results, failed_results, total) := tally results in
  (db', {| executed_count := length successful_results;
           failed_count := length failed_results;
           total_volume := total;
           successful_orders := successful_results;
           failed_orders := failed_results |}).

(** *** Closing *)

Record close_user_result : Type := {
  c_success : bool;
  c_user_id : option Z;
  c_closed_count : option nat;
  c_error : option string
}.

(** The loop over [zip(positions, close_results)]: a trade is recorded for
    every close that returned. *)
Fixpoint record_closes (w : world) (now : Z) (uid : Z)
    (pairs : list (position * res close_result)) (db : db_session) : db_session :=
  match pairs with
  | [] => db
  | (p, Ok c) :: rest =>
      record_closes w now uid rest
        (fst (_record_trade (trade_faults w uid p) now uid p c db))
  | (_, Raise _) :: rest => record_closes w now uid rest db
  end.

Definition _close_positions_for_user (w : world) (now : Z) (sym : option string)
    (session : session_dict) (db : db_session)
    : db_session * res close_user_result :=
  let uid := sd_user_id session in
  match session_tokens session with
  | Raise e => (db, Raise e)
  | Ok _ =>
      match get_opened_positions w session with
      | Raise e =>
          (db, Ok {| c_success := false; c_user_id := Some uid;
                     c_closed_count := None; c_error := Some (str_exn e) |})
      | Ok listed =>
          let positions :=
            if truthy_str sym
            then filter (fun p => eqb_ostr (p_symbol p) sym = true) listed
            else listed in
          match positions with
          | [] =>
              (db, Ok {| c_success := true; c_user_id := Some uid;
                         c_closed_count := Some 0%nat; c_error := None |})
          | _ =>
              let close_results :=
                gather (fun p => close_position w session (or_str (p_id p) (p_uuid p)))
                       positions in
              let db' := record_closes w now uid (zip positions close_results) db in
              let successful_closes :=
                length (filter (fun r => raises r = false) close_results) in
              (db', Ok {| c_success := true; c_user_id := Some uid;
                          c_closed_count := Some successful_closes;
                          c_error := None |})
          end
      end
  end.

Record close_report : Type := {
  closed_count : nat;
  cr_failed_count : nat;
  cr_results : list close_user_result
}.

Definition close_succeeded (r : res close_user_result) : bool :=
  match r with
  | Ok d => c_success d
  | Raise _ => false
  end.

Definition close_as_dict (r : res close_user_result) : close_user_result :=
  match r with
  | Ok d => d
  | Raise e => {| c_success := false; c_user_id := None;
                  c_closed_count := None; c_error := Some (str_exn e) |}
  end.

Definition _execute_close_orders (w : world) (now : Z) (sig : signal)
    (sessions : list session_dict) (db : db_session) : db_session * close_report :=
  let '(db', results) :=
    run_tasks (_close_positions_for_user w now (s_symbol sig)) sessions db in
  let successful_closes :=
    length (filter (fun r => close_succeeded r = true) results) in
  (db', {| closed_count := successful_closes;
           cr_failed_count := (length results - successful_closes)%nat;
           cr_results := map close_as_dict results |}).

(** *** execute_signal_for_all *)

(** [str.upper()] on the ASCII letters. *)
Definition upper_ascii (c : ascii) : ascii :=
  let n := nat_of_ascii c in
  if (97 <=? n)%nat && (n <=? 122)%nat then ascii_of_nat (n - 32) else c.

Fixpoint upper (s : string) : string :=
  match s with
  | EmptyString => EmptyString
  | String c rest => String (upper_ascii c) (upper rest)
  end.

(** The three shapes of the dictionary returned by [execute_signal_for_all]:
    ["success": False] with an ["error"] and both counts at 0, the report of
    [_execute_open_orders], the report of [_execute_close_orders]. *)
Inductive execute_response : Type :=
| NotExecuted (error : string)
| Opened (report : open_report)
| Closed (report : close_report).

(** The ["success"] entry. *)
Definition response_success (r : execute_response) : bool :=
  match r with
  | NotExecuted _ => false
  | Opened _ | Closed _ => true
  end.

(** The ["executed_count"] entry ([_execute_close_orders] has none). *)
Definition response_executed_count (r : execute_response) : option nat :=
  match r with
  | NotExecuted _ => Some 0%nat
  | Opened report => Some (executed_count report)
  | Closed _ => None
  end.

(** [snapshot] is the outcome of [self.session_manager.get_active_sessions()].
    [_save_signal] logs and drops its own failures and is left out. *)
Definition execute_signal_for_all (w : world) (now : Z) (sig : signal)
    (snapshot : res (list session_dict)) (db : db_session)
    : db_session * res execute_response :=
  match snapshot with
  | Raise e => (db, Raise e)
  | Ok [] => (db, Ok (NotExecuted "No active sessions"))
  | Ok active_sessions =>
      let act := upper (action sig) in
      if String.eqb act "OPEN_LONG" || String.eqb act "OPEN_SHORT" then
        let '(db', report) := _execute_open_orders w now sig active_sessions db in
        (db', Ok (Opened report))
      else if String.eqb act "CLOSE" || String.eqb act "CLOSE_ALL" then
        let '(db', report) := _execute_close_orders w now sig active_sessions db in
        (db', Ok (Closed report))
      else (db, Ok (NotExecuted ("Unknown action: " +:+ act)))
  end.

(** *** The position monitor *)

(** Three hundred seconds, in microseconds. *)
Definition max_holding : Z := 300 * 1000000.

(** [float(position.get("profit") or position.get("profitLoss", 0))] *)
Definition current_pl (p : position) : Q := float_or (profit p) (profitLoss p).

(** The auto-close checks of [_check_user_positions]:
    [(should_close, close_reason)]. *)
Definition auto_close (order : Order) (p : position) (now : Z) : bool * string :=
  let '(should_close, close_reason) :=
    match executed_at order with
    | Some at_ =>
        if max_holding <? now - at_
        then (true, "Max holding time exceeded")
        else (false, "")
    | None => (false, "")
    end in
  if Qle_bool 100 (current_pl p) then (true, "Target profit reached")
  else if Qle_bool (current_pl p) (-50) then (true, "Stop loss triggered")
  else (should_close, close_reason).

(** The [for position in positions] loop: the session, [closed_count], and
    the exception that left the loop, if any. *)
Fixpoint check_positions (w : world) (now : Z) (session : session_dict)
    (positions : list position) (db : db_session) (count : nat)
    : db_session * nat * option exn :=
  match positions with
  | [] => (db, count, None)
  | p :: rest =>
      let uid := sd_user_id session in
      match find_order (lookup_faults w uid p) false uid p db with
      | Raise e => (db, count, Some e)
      | Ok None => check_positions w now session rest db count
      | Ok (Some order) =>
          if fst (auto_close order p now) then
            match close_position w session (position_id_of p) with
            | Ok c =>
                let db' := fst (_record_trade (trade_faults w uid p) now uid p c db) in
                check_positions w now session rest db' (S count)
            | Raise _ => check_positions w now session rest db count
            end
          else check_positions w now session rest db count
      end
  end.

Record check_result : Type := {
  closed : nat;
  positions : nat;
  ck_error : option string
}.

Definition _check_user_positions (w : world) (now : Z) (session : session_dict)
    (db : db_session) : db_session * res check_result :=
  match session_tokens session with
  | Raise e => (db, Raise e)
  | Ok _ =>
      match get_opened_positions w session with
      | Raise e =>
          (db, Ok {| closed := 0; positions := 0; ck_error := Some (str_exn e) |})
      | Ok [] => (db, Ok {| closed := 0; positions := 0; ck_error := None |})
      | Ok listed =>
          match check_positions w now session listed db 0 with
          | (db', count, None) =>
              (db', Ok {| closed := count; positions := length listed;
                          ck_error := None |})
          | (db', count, Some e) =>
              (db', Ok {| closed := count; positions := 0;
                          ck_error := Some (str_exn e) |})
          end
      end
  end.

Record monitor_result : Type := {
  checked : nat;
  m_closed : nat;
  errors : nat
}.

(** The [for session in active_sessions] loop:
    the session, [closed_count] and [error_count]. *)
Fixpoint monitor_sessions (w : world) (now : Z) (sessions : list session_dict)
    (db : db_session) (closed_count error_count : nat) : db_session * nat * nat :=
  match sessions with
  | [] => (db, closed_count, error_count)
  | session :: rest =>
      match _check_user_positions w now session db with
      | (db', Ok result) =>
          monitor_sessions w now rest db'
            (if (0 <? closed result)%nat then (closed_count + closed result)%nat
             else closed_count)
            error_count
      | (db', Raise _) =>
          monitor_sessions w now rest db' closed_count (S error_count)
      end
  end.

Definition monitor_positions_once (w : world) (now : Z)
    (snapshot : res (list session_dict)) (db : db_session)
    : db_session * res monitor_result :=
  match snapshot with
  | Raise _ => (db, Ok {| checked := 0; m_closed := 0; errors := 1 |})
  | Ok [] => (db, Ok {| checked := 0; m_closed := 0; errors := 0 |})
  | Ok active_sessions =>
      let '(db', closed_count, error_count) :=
        monitor_sessions w now active_sessions db 0 0 in
      (db', Ok {| checked := length active_sessions; m_closed := closed_count;
                  errors := error_count |})
  end.

(** *** The auto-close policy as the specification words it *)





End OrderOrchestrator.

(** ** services/mt_api_client.py *)

Module ApiClient.

Section Request.

(** The decoded JSON body of a response, and its rendering in an f-string. *)
Variable D : Type.
Variable show : D -> string.

(** How one [self.session.request(...)] with [response.json()] ends: a
    response with its status, an [aiohttp.ClientError], or any other
    exception. *)
Inductive outcome : Type :=
| Responded (status : Z) (response_data : D)
| ClientError (msg : string)
| OtherException (msg : string).

(** The message of the [MatchTradeAPIError] raised on a status other than
    200. *)
Definition status_message (status : Z) (response_data : D) : string :=
  if status =? 401 then "Unauthorized: " +:+ show response_data
  else if status =? 400 then "Bad request: " +:+ show response_data
  else if status =? 410 then "Resource expired: " +:+ show response_data
  else "API error (" +:+ pretty status +:+ "): " +:+ show response_data.

(** The [for attempt in range(max_retries)] loop of [_request], from
    [attempt] on, with [remaining] iterations left.  [slept] lists the
    [asyncio.sleep] delays so far, in seconds.  The error raised on a status
    other than 200 is raised inside the [try], so the last [except] wraps
    it.  A loop that runs out returns [None]. *)
Fixpoint request_from (max_retries : nat) (net : nat -> outcome)
    (remaining attempt : nat) (slept : list Z) : list Z * res (option D) :=
  match remaining with
  | O => (slept, Ok None)
  | S remaining' =>
      match net attempt with
      | Responded status response_data =>
          if status =? 200 then (slept, Ok (Some response_data))
          else (slept, Raise (MatchTradeAPIError
                                ("Unexpected error: "
                                 +:+ status_message status response_data)))
      | ClientError msg =>
          if (attempt =? max_retries - 1)%nat
          then (slept, Raise (MatchTradeAPIError ("Network error: " +:+ msg)))
          else request_from max_retries net remaining' (S attempt)
                            (slept ++ [2 ^ Z.of_nat attempt])
      | OtherException msg =>
          (slept, Raise (MatchTradeAPIError ("Unexpected error: " +:+ msg)))
      end
  end.

(** [net k] is how the [k]-th request ends. *)
Definition _request (max_retries : nat) (net : nat -> outcome)
    : list Z * res (option D) :=
  request_from max_retries net max_retries 0 [].

(** [logout]: [True] when [_request] returned, [False] when it raised. *)
Definition logout (max_retries : nat) (net : nat -> outcome) : list Z * bool :=
  let '(slept, r) := _request max_retries net in
  (slept, negb (raises r)).

End Request.

Arguments Responded {D} status response_data.
Arguments ClientError {D} msg.
Arguments OtherException {D} msg.

End ApiClient.

(** ** api/trading.py and schemas/order.py *)

Module TradingApi.

Import SessionManager OrderOrchestrator.

(** Why a handler answered 500: an exception of the service, or a
    dictionary the response schema rejects for want of a required field. *)
Inductive cause : Type :=
| Uncaught (e : exn)
| FieldRequired (field : string).

(** What a handler answers: the body of a 200, or the [HTTPException]
    raised with status 500. *)
Inductive answer (A : Type) : Type :=
| Answered (body : A)
| ServerError (why : cause).
Arguments Answered {A} body.
Arguments ServerError {A} why.

(** [OrderResponse]: [success] and [user_id] are required, the rest is
    optional. *)
Record OrderResponse : Type := {
  or_success : bool;
  or_user_id : Z;
  or_order_id : option Z;
  or_order_uuid : option string;
  or_side : option string;
  or_volume : option Q;
  or_error : option string
}.

(** [OrderResponse] built from a dictionary of [_execute_order_for_user]. *)
Definition order_response (d : order_result) : cause + OrderResponse :=
  match o_user_id d with
  | None => inl (FieldRequired "user_id")
  | Some uid =>
      inr {| or_success := o_success d; or_user_id := uid;
             or_order_id := o_order_id d; or_order_uuid := o_order_uuid d;
             or_side := o_side d; or_volume := o_volume d;
             or_error := o_error d |}
  end.

Fixpoint order_responses (ds : list order_result) : cause + list OrderResponse :=
  match ds with
  | [] => inr []
  | d :: rest =>
      match order_response d with
      | inl why => inl why
      | inr r =>
          match order_responses rest with
          | inl why => inl why
          | inr rs => inr (r :: rs)
          end
      end
  end.

(** [ExecuteSignalResponse]: [success], [executed_count] and
    [failed_count] are required. *)
Record ExecuteSignalResponse : Type := {
  es_success : bool;
  es_executed_count : nat;
  es_failed_count : nat;
  es_total_volume : option Q;
  es_successful_orders : list OrderResponse;
  es_failed_orders : list OrderResponse;
  es_error : option string
}.

(** [ExecuteSignalResponse] built from [result]: keys the schema does not name are
    ignored; the dictionary of [_execute_close_orders] has no
    ["executed_count"]. *)
Definition execute_signal_response (result : execute_response)
    : cause + ExecuteSignalResponse :=
  match result with
  | NotExecuted err =>
      inr {| es_success := false; es_executed_count := 0; es_failed_count := 0;
             es_total_volume := None; es_successful_orders := [];
             es_failed_orders := []; es_error := Some err |}
  | Opened report =>
      match order_responses (successful_orders report) with
      | inl why => inl why
      | inr good =>
          match order_responses (failed_orders report) with
          | inl why => inl why
          | inr bad =>
              inr {| es_success := true;
                     es_executed_count := executed_count report;
                     es_failed_count := failed_count report;
                     es_total_volume := Some (total_volume report);
                     es_successful_orders := good;
                     es_failed_orders := bad;
                     es_error := None |}
          end
      end
  | Closed _ => inl (FieldRequired "executed_count")
  end.

(** [POST /trading/signal] *)
Definition execute_trading_signal (w : world) (now : Z) (sig : signal)
    (snapshot : res (list session_dict)) (db : db_session)
    : db_session * answer ExecuteSignalResponse :=
  match execute_signal_for_all w now sig snapshot db with
  | (db', Raise e) => (db', ServerError (Uncaught e))
  | (db', Ok result) =>
      match execute_signal_response result with
      | inl why => (db', ServerError why)
      | inr body => (db', Answered body)
      end
  end.

Record ClosePositionsResponse : Type := {
  cp_success : bool;
  cp_closed_count : nat;
  cp_failed_count : nat;
  cp_results : list order_result
}.

(** [result.get("success", True)], [result.get("executed_count", 0)],
    [result.get("failed_count", 0)] and
    [result.get("successful_orders", []) + result.get("failed_orders", [])]
    on the three shapes of [result]. *)
Definition close_positions_response (result : execute_response)
    : ClosePositionsResponse :=
  match result with
  | NotExecuted _ =>
      {| cp_success := false; cp_closed_count := 0; cp_failed_count := 0;
         cp_results := [] |}
  | Opened report =>
      {| cp_success := true; cp_closed_count := executed_count report;
         cp_failed_count := failed_count report;
         cp_results := successful_orders report ++ failed_orders report |}
  | Closed report =>
      {| cp_success := true; cp_closed_count := 0;
         cp_failed_count := cr_failed_count report; cp_results := [] |}
  end.

(** [POST /trading/close-all]; the signal it builds has the keys ["action"]
    and ["symbol"] only, the others are not read on the closing path. *)
Definition close_all_positions (w : world) (now : Z) (sym : option string)
    (snapshot : res (list session_dict)) (db : db_session)
    : db_session * answer ClosePositionsResponse :=
  let sig := {| action := "CLOSE"; s_symbol := sym; s_volume := 0;
                s_stop_loss := None; s_take_profit := None |} in
  match execute_signal_for_all w now sig snapshot db with
  | (db', Raise e) => (db', ServerError (Uncaught e))
  | (db', Ok result) => (db', Answered (close_positions_response result))
  end.

End TradingApi.

(** ** services/websocket_manager.py: the typed emitters and the statistics *)

Module BusEmitters.

Import EventBus.

(** Each emitter is a sequence of [broadcast]s of one message; the sends
    of each [broadcast] have outcomes of their own. *)
Definition broadcast_position_update (to_positions to_dashboard : WebSocket -> peer)
    (m : ConnectionManager) : ConnectionManager :=
  broadcast to_dashboard "dashboard" (broadcast to_positions "positions" m).

Definition broadcast_balance_update (to_dashboard : WebSocket -> peer)
    (m : ConnectionManager) : ConnectionManager :=
  broadcast to_dashboard "dashboard" m.

Definition broadcast_trade_signal (to_trading to_dashboard : WebSocket -> peer)
    (m : ConnectionManager) : ConnectionManager :=
  broadcast to_dashboard "dashboard" (broadcast to_trading "trading" m).

Definition broadcast_order_executed
    (to_trading to_positions to_dashboard : WebSocket -> peer)
    (m : ConnectionManager) : ConnectionManager :=
  broadcast to_dashboard "dashboard"
    (broadcast to_positions "positions" (broadcast to_trading "trading" m)).

Definition broadcast_position_closed (to_positions to_dashboard : WebSocket -> peer)
    (m : ConnectionManager) : ConnectionManager :=
  broadcast to_dashboard "dashboard" (broadcast to_positions "positions" m).

Definition broadcast_session_update (to_sessions to_dashboard : WebSocket -> peer)
    (m : ConnectionManager) : ConnectionManager :=
  broadcast to_dashboard "dashboard" (broadcast to_sessions "sessions" m).

Definition broadcast_error (to_channel : WebSocket -> peer) (chan : string)
    (m : ConnectionManager) : ConnectionManager :=
  broadcast to_channel chan m.

(** The dictionary of [get_statistics]; the entries of ["connections"] come
    in the order of the metadata dictionary, which the map does not keep. *)
Record statistics : Type := {
  total_connections : nat;
  channel_stats : gmap string nat;
  connections : list metadata
}.

Definition get_statistics (m : ConnectionManager) : statistics :=
  {| total_connections := length (active_connections m);
     channel_stats := size <$> channels m;
     connections := snd <$> map_to_list (connection_metadata m) |}.

End BusEmitters.


(** ** utils/encryption.py: encrypt_sensitive_data *)

Module VaultEncrypt.

(** The library calls of [encrypt_sensitive_data]: [str.encode],
    [base64.b64encode(...).decode()], which is total on bytes, and
    [Fernet(key).encrypt].  [fernet_encrypt key] covers the constructor
    [Fernet(key)], which rejects a malformed key, and [cipher.encrypt]. *)
Record encrypt_lib : Type := {
  encode : string -> res (list Byte.byte);
  b64encode : list Byte.byte -> string;
  fernet_encrypt : string -> list Byte.byte -> res (list Byte.byte)
}.

Section Encrypt.

Variable lib : encrypt_lib.

(** [getattr(settings, 'ENCRYPTION_KEY', None)] *)
Variable ENCRYPTION_KEY : option string.

(** [base64.b64encode(data.encode()).decode()] *)
Definition base64_of (data : string) : res string :=
  raw ← encode lib data; Ok (b64encode lib raw).

(** The body of the [try]: cipher, encrypt, base64 storage format.  The
    handler drops the exception, so which of the calls raised first does
    not show. *)
Definition fernet_of (key data : string) : res string :=
  raw ← encode lib data;
  encrypted ← fernet_encrypt lib key raw;
  Ok (b64encode lib encrypted).

Definition encrypt_sensitive_data (data : string) : res string :=
  if negb (truthy_str ENCRYPTION_KEY) then
    base64_of data
  else
    let encryption_key := default "" ENCRYPTION_KEY in
    catch (fernet_of encryption_key data) (fun _ => base64_of data).

End Encrypt.

End VaultEncrypt.

(** ** services/session_manager.py: the session table *)

Module SessionPool.

Import SessionManager.

(** The table [user_sessions] in an [AsyncSession]: [stored] is what is
    committed, [view] what the session reads and writes.  The cache
    [self.active_sessions] is written and never read; it is left out. *)
Record pool : Type := {
  stored : list UserSession;
  view : list UserSession
}.

Definition rollback (p : pool) : pool :=
  {| stored := stored p; view := stored p |}.

(** [outcome] is what the database answers to the [COMMIT]. *)
Definition commit (outcome : option exn) (p : pool) : pool * res unit :=
  match outcome with
  | None => ({| stored := view p; view := view p |}, Ok tt)
  | Some e => (p, Raise e)
  end.

(** Fifteen minutes, in microseconds. *)
Definition fifteen_minutes : Z := 900 * 1000000.

(** [select(UserSession).where(UserSession.user_id == user_id,
    UserSession.is_active == True)] *)
Definition active_of (uid : Z) (rows : list UserSession) : list UserSession :=
  filter (fun s => us_user_id s = uid /\ us_is_active s = true) rows.

(** The select followed by [scalar_one_or_none()]; [fault] is an error of
    the round trip. *)
Definition select_active (fault : option exn) (uid : Z) (p : pool)
    : res (option UserSession) :=
  rows ← OrderOrchestrator.query fault (active_of uid (view p));
  OrderOrchestrator.scalar_one_or_none rows.

(** Attribute assignment on a loaded [UserSession]: the row of that
    identity. *)
Definition write_session (s : UserSession) (p : pool) : pool :=
  {| stored := stored p;
     view := map (fun x => if us_id x =? us_id s then s else x) (view p) |}.

(** [self.db.add(session)]: the primary key is the next free one. *)
Definition next_session_id (p : pool) : Z :=
  1 + foldr (fun s acc => Z.max (us_id s) acc) 0 (view p).

Definition add_session (s : UserSession) (p : pool) : pool :=
  {| stored := stored p; view := view p ++ [s] |}.

(** What the database answers to the round trips of one call. *)
Record pool_faults : Type := {
  on_select : option exn;
  on_commit : option exn;
  on_refresh : option exn
}.

Definition no_faults : pool_faults :=
  {| on_select := None; on_commit := None; on_refresh := None |}.

(** *** login_user: storing the session *)

(** The part of [login_user] that follows the check of the tokens: create
    or update the session, commit and refresh it; the result is
    [session.id].  [now] and [now'] are the two readings of the clock, for
    [expires_at] and then for [login_at]. *)
Definition login_store (faults : pool_faults) (uid : Z) (tok trading : string)
    (account : option string) (now now' : Z) (p : pool) : pool * res Z :=
  let expires := now + fifteen_minutes in
  match select_active (on_select faults) uid p with
  | Raise e => (p, Raise e)
  | Ok existing_session =>
      let '(session, p1) :=
        match existing_session with
        | Some existing =>
            let session :=
              {| us_id := us_id existing;
                 us_user_id := us_user_id existing;
                 us_token := tok;
                 us_trading_api_token := trading;
                 us_trading_account_id := account;
                 us_login_at := now';
                 expires_at := Some expires;
                 us_is_active := true;
                 last_refresh_at := last_refresh_at existing |} in
            (session, write_session session p)
        | None =>
            let session :=
              {| us_id := next_session_id p;
                 us_user_id := uid;
                 us_token := tok;
                 us_trading_api_token := trading;
                 us_trading_account_id := account;
                 us_login_at := now';
                 expires_at := Some expires;
                 us_is_active := true;
                 last_refresh_at := None |} in
            (session, add_session session p)
        end in
      match commit (on_commit faults) p1 with
      | (p2, Raise e) => (rollback p2, Raise e)
      | (p2, Ok _) =>
          match on_refresh faults with
          | Some e => (rollback p2, Raise e)
          | None => (p2, Ok (us_id session))
          end
      end
  end.

(** *** logout_user *)

Definition succeeded (uid : Z) : login_result :=
  {| success := true; user_id := Some uid; error := None;
     retry_count := None; session_id := None |}.

(** The body of the [try] of [logout_user].  [upstream] is what
    [api_client.logout] returned, which raises nothing and whose result is
    dropped. *)
Definition logout_body (faults : pool_faults) (upstream : bool) (uid : Z)
    (p : pool) : pool * res login_result :=
  match select_active (on_select faults) uid p with
  | Raise e => (p, Raise e)
  | Ok None => (p, Ok (failure (Some uid) "No active session found" None))
  | Ok (Some session) =>
      let _ := upstream in
      let p1 := write_session
                  {| us_id := us_id session;
                     us_user_id := us_user_id session;
                     us_token := us_token session;
                     us_trading_api_token := us_trading_api_token session;
                     us_trading_account_id := us_trading_account_id session;
                     us_login_at := us_login_at session;
                     expires_at := expires_at session;
                     us_is_active := false;
                     last_refresh_at := last_refresh_at session |} p in
      match commit (on_commit faults) p1 with
      | (p2, Raise e) => (rollback p2, Raise e)
      | (p2, Ok _) => (p2, Ok (succeeded uid))
      end
  end.

Definition logout_user (faults : pool_faults) (upstream : bool) (uid : Z)
    (p : pool) : pool * login_result :=
  match logout_body faults upstream uid p with
  | (p', Ok d) => (p', d)
  | (p', Raise e) => (p', failure (Some uid) (str_exn e) None)
  end.

(** *** refresh_token *)

(** [new or old] on a token of the response and the stored one. *)
Definition or_old (new : option string) (old : string) : string :=
  if truthy_str new then default "" new else old.

(** The body of the [try] of [refresh_token].  [api_refresh] is the
    broker's answer to the token it is given; [relogin] is
    [self.login_user(user_id)], which raises nothing; [now] and [now'] are
    the readings of the clock for [last_refresh_at] and [expires_at]. *)
Definition refresh_body (faults : pool_faults)
    (api_refresh : string -> res login_response)
    (relogin : pool -> pool * login_result)
    (uid : Z) (now now' : Z) (p : pool) : pool * res login_result :=
  match select_active (on_select faults) uid p with
  | Raise e => (p, Raise e)
  | Ok None => let '(p', d) := relogin p in (p', Ok d)
  | Ok (Some session) =>
      match api_refresh (us_token session) with
      | Raise e => (p, Raise e)
      | Ok refresh_response =>
          let new_token := token refresh_response in
          let new_trading_token :=
            or_str (trading_api_token refresh_response)
                   (tradingApiToken refresh_response) in
          let p1 := write_session
                      {| us_id := us_id session;
                         us_user_id := us_user_id session;
                         us_token := or_old new_token (us_token session);
                         us_trading_api_token :=
                           or_old new_trading_token (us_trading_api_token session);
                         us_trading_account_id := us_trading_account_id session;
                         us_login_at := us_login_at session;
                         expires_at := Some (now' + fifteen_minutes);
                         us_is_active := us_is_active session;
                         last_refresh_at := Some now |} p in
          match commit (on_commit faults) p1 with
          | (p2, Raise e) => (rollback p2, Raise e)
          | (p2, Ok _) => (p2, Ok (succeeded uid))
          end
      end
  end.

Definition refresh_token (faults : pool_faults)
    (api_refresh : string -> res login_response)
    (relogin : pool -> pool * login_result)
    (uid : Z) (now now' : Z) (p : pool) : pool * login_result :=
  match refresh_body faults api_refresh relogin uid now now' p with
  | (p', Ok d) => (p', d)
  | (p', Raise (MatchTradeAPIError _)) => relogin p'
  | (p', Raise e) => (p', failure (Some uid) (str_exn e) None)
  end.

(** [get_session_by_user_id] on the table. *)
Definition session_by_user_id (fault : option exn) (uid : Z) (p : pool)
    : res (option session_dict) :=
  get_session_by_user_id (select_active fault uid p).

End SessionPool.
(** * Properties *)

(** ** Position sizing *)

Module SizerFacts.

Import OrderOrchestrator.

Lemma py_min_le_l (a b : Q) : (py_min a b <= a)%Q.
Proof.
  unfold py_min. destruct (Qle_bool a b) eqn:E.
  - apply Qle_refl.
  - destruct (Qlt_le_dec b a) as [H | H].
    + apply Qlt_le_weak, H.
    + apply Qle_bool_iff in H. congruence.
Qed.

Lemma py_min_le_r (a b : Q) : (py_min a b <= b)%Q.
Proof.
  unfold py_min. destruct (Qle_bool a b) eqn:E.
  - apply Qle_bool_iff, E.
  - apply Qle_refl.
Qed.

Lemma py_min_is_Qmin (a b : Q) : (py_min a b == Qmin a b)%Q.
Proof.
  unfold py_min. destruct (Qle_bool a b) eqn:E.
  - apply Qle_bool_iff in E. symmetry. apply Q.min_l, E.
  - destruct (Qlt_le_dec b a) as [H | H].
    + symmetry. apply Q.min_r, Qlt_le_weak, H.
    + apply Qle_bool_iff in H. congruence.
Qed.

Lemma py_min_mono_r (v a b : Q) : (a <= b)%Q -> (py_min v a <= py_min v b)%Q.
Proof.
  intros Hab. rewrite !py_min_is_Qmin. apply Q.min_le_compat_l, Hab.
Qed.

(** C6 (P4, sizing monotonicity): for a requested volume [v >= 0] and
    balances [b1 < b2], the size computed for [b1] is at most the size
    computed for [b2], which is at most [v]; the size is [min(v, 0.01)]
    below 1000, [min(v, 0.05)] from 1000 and below 5000, and [v] from 5000. *)
Theorem position_size_monotone (v b1 b2 : Q) :
  (0 <= v)%Q -> (b1 < b2)%Q ->
  (_calculate_position_size b1 v <= _calculate_position_size b2 v)%Q
  /\ (_calculate_position_size b2 v <= v)%Q
  /\ ((b2 < 1000)%Q -> (_calculate_position_size b2 v == Qmin v (1 # 100))%Q)
  /\ ((1000 <= b2)%Q -> (b2 < 5000)%Q ->
      (_calculate_position_size b2 v == Qmin v (5 # 100))%Q)
  /\ ((5000 <= b2)%Q -> _calculate_position_size b2 v = v).
Proof.
  intros _ Hlt.
  assert (Hbound : forall b, (_calculate_position_size b v <= v)%Q).
  { intros b. unfold _calculate_position_size.
    destruct (Qlt_le_dec b 1000); [apply py_min_le_l |].
    destruct (Qlt_le_dec b 5000); [apply py_min_le_l | apply Qle_refl]. }
  split; [| split; [apply Hbound | ]].
  - unfold _calculate_position_size.
    destruct (Qlt_le_dec b1 1000) as [L1 | L1];
      destruct (Qlt_le_dec b2 1000) as [L2 | L2].
    + apply Qle_refl.
    + destruct (Qlt_le_dec b2 5000).
      * apply py_min_mono_r. discriminate.
      * apply py_min_le_l.
    + exfalso. apply (Qlt_irrefl b1).
      eapply Qlt_le_trans; [apply Hlt |].
      eapply Qle_trans; [apply Qlt_le_weak, L2 | apply L1].
    + destruct (Qlt_le_dec b1 5000) as [M1 | M1];
        destruct (Qlt_le_dec b2 5000) as [M2 | M2].
      * apply Qle_refl.
      * apply py_min_le_l.
      * exfalso. apply (Qlt_irrefl b1).
        eapply Qlt_le_trans; [apply Hlt |].
        eapply Qle_trans; [apply Qlt_le_weak, M2 | apply M1].
      * apply Qle_refl.
  - unfold _calculate_position_size. repeat split.
    + intros H. destruct (Qlt_le_dec b2 1000) as [L | L].
      * apply py_min_is_Qmin.
      * exfalso. apply (Qlt_irrefl b2). eapply Qlt_le_trans; eauto.
    + intros H1 H2. destruct (Qlt_le_dec b2 1000) as [L | L].
      * exfalso. apply (Qlt_irrefl b2). eapply Qlt_le_trans; eauto.
      * destruct (Qlt_le_dec b2 5000) as [M | M].
        -- apply py_min_is_Qmin.
        -- exfalso. apply (Qlt_irrefl b2). eapply Qlt_le_trans; eauto.
    + intros H. destruct (Qlt_le_dec b2 1000) as [L | L].
      * exfalso. apply (Qlt_irrefl b2). eapply Qlt_le_trans; [apply L |].
        eapply Qle_trans; [| apply H]. discriminate.
      * destruct (Qlt_le_dec b2 5000) as [M | M]; [| reflexivity].
        exfalso. apply (Qlt_irrefl b2). eapply Qlt_le_trans; eauto.
Qed.

(** Scenario 2 of the specification: balances 500 and 8000, volume 0.1. *)
Lemma position_size_monotone_witness :
  (0 <= 1 # 10)%Q /\ (500 < 8000)%Q
  /\ (_calculate_position_size 500 (1 # 10) <= _calculate_position_size 8000 (1 # 10))%Q
  /\ (_calculate_position_size 8000 (1 # 10) <= 1 # 10)%Q.
Proof.
  assert (Hv : (0 <= 1 # 10)%Q) by discriminate.
  assert (Hb : (500 < 8000)%Q) by reflexivity.
  pose proof (position_size_monotone (1 # 10) 500 8000 Hv Hb) as (H1 & H2 & _).
  exact (conj Hv (conj Hb (conj H1 H2))).
Defined.

End SizerFacts.

(** ** Credential decryption and login *)

Module VaultFacts.

Import Vault SessionManager.

(** The libraries at the inputs used below: [base64.b64decode] turns
    ["aGVsbG8="] into the five bytes of ["hello"] and rejects ["secret!"]
    (incorrect padding); [Fernet.decrypt] rejects every token that was not
    produced under the key, the five bytes of ["hello"] among them. *)
Definition legacy_lib : crypto_lib :=
  {| b64decode := fun s =>
       if String.eqb s "aGVsbG8=" then Ok [x68; x65; x6c; x6c; x6f]
       else Raise BinasciiError;
     decode := fun raw => Ok (string_of_list_byte raw);
     fernet_decrypt := fun _ _ => Raise InvalidToken |}.

Definition legacy_user (stored_password : string) : User :=
  {| id := 7; email := "a@b.c"; encrypted_password := stored_password;
     broker_id := "0"; is_active := true |}.

(** A broker that accepts whatever password it is given. *)
Definition accepting_env (stored_password : string) : login_env :=
  {| find_user := fun _ => Ok (Some (legacy_user stored_password));
     api_login := fun _ _ _ _ =>
       Ok {| token := Some "t"; trading_api_token := Some "tt";
             tradingApiToken := None; trading_account_id := None;
             tradingAccountId := None |};
     store_session := fun _ => Ok 1 |}.

Lemma decrypt_never_raises lib key data :
  raises (decrypt_sensitive_data lib key data) = false.
Proof.
  unfold decrypt_sensitive_data, base64_fallback.
  destruct (negb (truthy_str key)).
  - destruct (base64_text lib data); reflexivity.
  - destruct (fernet_text lib (default "" key) data); [reflexivity |].
    simpl. destruct (base64_text lib data); reflexivity.
Qed.

(** C2, as the specification states it, fails: with the key set, Fernet
    rejects the stored value, yet [decrypt_sensitive_data] returns its
    base64 decoding (["aGVsbG8="]) or the value itself (["secret!"]), and
    the login of the user goes through. *)
Lemma decrypt_failure_is_silent :
  fernet_text legacy_lib "k" "aGVsbG8=" = Raise InvalidToken
  /\ decrypt_sensitive_data legacy_lib (Some "k") "aGVsbG8=" = Ok "hello"
  /\ fernet_text legacy_lib "k" "secret!" = Raise BinasciiError
  /\ decrypt_sensitive_data legacy_lib (Some "k") "secret!" = Ok "secret!"
  /\ success (login_user legacy_lib (Some "k") 3 (accepting_env "aGVsbG8=") 7 0)
     = true.
Proof. repeat split; reflexivity. Qed.

(** C2, amended: when Fernet decryption fails, [decrypt_sensitive_data]
    raises nothing; it returns the base64 decoding of the input when there
    is one and the input itself otherwise.  [login_user] hands that value
    to the broker as the password, and the login succeeds as soon as the
    broker accepts it and the session is stored. *)
Theorem decrypt_failure_falls_back lib key data e :
  truthy_str key = true ->
  fernet_text lib (default "" key) data = Raise e ->
  raises (decrypt_sensitive_data lib key data) = false
  /\ decrypt_sensitive_data lib key data
     = Ok (match base64_text lib data with Ok s => s | Raise _ => data end)
  /\ forall max_retry env uid user answer sid,
       find_user env 0%nat = Ok (Some user) ->
       is_active user = true ->
       encrypted_password user = data ->
       api_login env 0%nat (email user)
         (match base64_text lib data with Ok s => s | Raise _ => data end)
         (broker_id user) = Ok answer ->
       truthy_str (token answer) = true ->
       truthy_str (or_str (trading_api_token answer) (tradingApiToken answer)) = true ->
       store_session env 0%nat = Ok sid ->
       login_user lib key max_retry env uid 0
       = {| success := true; user_id := Some uid; error := None;
            retry_count := None; session_id := Some sid |}.
Proof.
  intros Hkey Hfail.
  assert (Hdec : decrypt_sensitive_data lib key data
                 = Ok (match base64_text lib data with Ok s => s | Raise _ => data end)).
  { unfold decrypt_sensitive_data, base64_fallback. rewrite Hkey, Hfail. simpl.
    destruct (base64_text lib data); reflexivity. }
  split; [apply decrypt_never_raises |]. split; [exact Hdec |].
  intros max_retry env uid user answer sid Hu Ha Hp Hlogin Ht Htt Hs.
  unfold login_user.
  assert (Hatt : login_attempt lib key env uid 0
                 = Ok {| success := true; user_id := Some uid; error := None;
                         retry_count := None; session_id := Some sid |}).
  { unfold login_attempt. rewrite Hu. simpl. rewrite Ha. simpl.
    rewrite Hp, Hdec. simpl. rewrite Hlogin. simpl.
    rewrite Ht, Htt. simpl. rewrite Hs. reflexivity. }
  destruct (max_retry - 0)%nat; simpl; rewrite Hatt; reflexivity.
Qed.

Lemma decrypt_failure_falls_back_witness :
  decrypt_sensitive_data legacy_lib (Some "k") "aGVsbG8=" = Ok "hello"
  /\ success (login_user legacy_lib (Some "k") 3 (accepting_env "aGVsbG8=") 7 0)
     = true.
Proof.
  pose proof (decrypt_failure_falls_back legacy_lib (Some "k") "aGVsbG8="
                InvalidToken eq_refl eq_refl) as (_ & Hdec & Hlogin).
  split; [exact Hdec |].
  rewrite (Hlogin 3%nat (accepting_env "aGVsbG8=") 7
             (legacy_user "aGVsbG8=")
             {| token := Some "t"; trading_api_token := Some "tt";
                tradingApiToken := None; trading_account_id := None;
                tradingAccountId := None |} 1
             eq_refl eq_refl eq_refl eq_refl eq_refl eq_refl eq_refl).
  reflexivity.
Defined.

End VaultFacts.

(** ** Session health classification *)

Module SweepFacts.

Import SessionManager.















End SweepFacts.

(** ** Event bus *)

Module BusFacts.

Import EventBus.

Definition probe_ok (p : state_probe) : bool :=
  match p with
  | NoClientState | ClientState CONNECTED => true
  | ClientState _ | ProbeRaises _ => false
  end.

Definition send_failed (o : send_outcome) : bool :=
  match o with
  | Failed _ => true
  | Delivered | TimedOut => false
  end.

(** What [broadcast] takes as a reason to disconnect a connection: a
    [client_state] other than [CONNECTED], or a send that raised. *)
Definition marked (peers : WebSocket -> peer) (x : WebSocket) : bool :=
  negb (probe_ok (probe (peers x))) || send_failed (send (peers x)).

Lemma member_disconnect w m chan x :
  member (disconnect w m) chan x <-> member m chan x /\ x <> w.
Proof.
  unfold member, disconnect. cbn [channels]. rewrite lookup_fmap. split.
  - intros (s & Hs & Hx).
    destruct (channels m !! chan) as [s0 |] eqn:E; [| discriminate].
    inversion Hs; subst s. apply elem_of_difference in Hx as [Hx Hne].
    split; [eauto |]. intros ->. apply Hne, elem_of_singleton. reflexivity.
  - intros [(s & Hs & Hx) Hne]. rewrite Hs. eexists. split; [reflexivity |].
    apply elem_of_difference. split; [exact Hx |].
    rewrite elem_of_singleton. exact Hne.
Qed.

Lemma metadata_disconnect w m x :
  connection_metadata (disconnect w m) !! x
  = if decide (x = w) then None else connection_metadata m !! x.
Proof.
  unfold disconnect. cbn [connection_metadata].
  destruct (decide (x = w)) as [-> | Hne].
  - apply lookup_delete_eq.
  - apply lookup_delete_ne. congruence.
Qed.

Definition disconnect_all (l : list WebSocket) (m : ConnectionManager)
    : ConnectionManager :=
  foldl (fun acc connection => disconnect connection acc) m l.

Lemma member_disconnect_all l m chan x :
  member (disconnect_all l m) chan x <-> member m chan x /\ x ∉ l.
Proof.
  revert m. induction l as [| w l IH]; intros m; cbn [disconnect_all foldl].
  - split; [intros H; split; [exact H | apply not_elem_of_nil] | tauto].
  - fold (disconnect_all l (disconnect w m)).
    rewrite IH, member_disconnect, not_elem_of_cons. tauto.
Qed.

Lemma metadata_disconnect_all l m x :
  connection_metadata (disconnect_all l m) !! x
  = if decide (x ∈ l) then None else connection_metadata m !! x.
Proof.
  revert m. induction l as [| w l IH]; intros m; cbn [disconnect_all foldl].
  - destruct (decide (x ∈ [])) as [H | _]; [inversion H | reflexivity].
  - fold (disconnect_all l (disconnect w m)).
    rewrite IH, metadata_disconnect.
    destruct (decide (x ∈ l)) as [Hin | Hout].
    + rewrite decide_True; [reflexivity | apply elem_of_cons; auto].
    + destruct (decide (x = w)) as [-> | Hne].
      * rewrite decide_True; [reflexivity | apply elem_of_cons; auto].
      * rewrite decide_False; [reflexivity |].
        rewrite elem_of_cons. tauto.
Qed.

Lemma check_states_spec peers connections valid dropped :
  check_states peers connections = (valid, dropped) ->
  forall x,
    (x ∈ valid <-> x ∈ connections /\ probe_ok (probe (peers x)) = true)
    /\ (x ∈ dropped <-> x ∈ connections /\ probe_ok (probe (peers x)) = false).
Proof.
  revert valid dropped.
  induction connections as [| c rest IH]; intros valid dropped H x;
    cbn [check_states] in H.
  - inversion H; subst. rewrite !elem_of_nil. tauto.
  - destruct (check_states peers rest) as [v d].
    specialize (IH v d eq_refl x) as [IHv IHd].
    destruct (probe (peers c)) as [| [] | e] eqn:E; inversion H; subst;
      rewrite !elem_of_cons, ?IHv, ?IHd; split; split;
      try (intros [-> | [? ?]]; [rewrite E |]; cbn; tauto);
      try (intros [[-> | ?] Hp]; [rewrite E in Hp; cbn in Hp; try discriminate |];
           tauto);
      try tauto.
Qed.


Lemma process_results_spec peers valid md dropped md' dropped' :
  process_results
    (zip valid (gather (fun c => _send_with_timeout (send (peers c))) valid))
    md dropped = (md', dropped') ->
  forall x,
    (x ∈ dropped' <-> x ∈ dropped \/ (x ∈ valid /\ send_failed (send (peers x)) = true))
    /\ (send (peers x) <> Delivered -> md' !! x = md !! x).
Proof.
  revert md dropped.
  induction valid as [| c rest IH]; intros md dropped H x;
    cbn [gather map zip zip_with process_results] in H.
  - inversion H; subst. rewrite elem_of_nil. tauto.
  - fold (gather (fun c => _send_with_timeout (send (peers c))) rest) in H.
    fold (zip rest (gather (fun c => _send_with_timeout (send (peers c))) rest)) in H.
    destruct (send (peers c)) as [| | e] eqn:E; cbn [_send_with_timeout] in H.
    + destruct (IH _ _ H x) as [IHd IHm]. split.
      * rewrite IHd, elem_of_cons. split; [tauto |].
        intros [? | [[-> | ?] Hf]]; [tauto | | tauto].
        rewrite E in Hf. discriminate.
      * intros Hx. rewrite (IHm Hx). unfold count_message.
        apply lookup_alter_ne. intros ->. contradiction.
    + destruct (IH _ _ H x) as [IHd IHm]. split; [| exact IHm].
      rewrite IHd, elem_of_cons. split; [tauto |].
      intros [? | [[-> | ?] Hf]]; [tauto | | tauto].
      rewrite E in Hf. discriminate.
    + destruct (IH _ _ H x) as [IHd IHm]. split; [| exact IHm].
      rewrite IHd, elem_of_app, !elem_of_cons, elem_of_nil.
      split; [| tauto].
      intros [[? | [-> | []]] | ?]; [tauto | | tauto].
      right. split; [tauto |]. rewrite E. reflexivity.
Qed.

Lemma broadcast_shape peers chan m :
  exists md' dropped,
    broadcast peers chan m
    = disconnect_all dropped
        {| active_connections := active_connections m;
           channels := channels m;
           connection_metadata := md' |}
    /\ (forall x, x ∈ dropped <-> member m chan x /\ marked peers x = true)
    /\ (forall x, send (peers x) <> Delivered ->
                  md' !! x = connection_metadata m !! x).
Proof.
  unfold broadcast.
  destruct (channels m !! chan) as [members |] eqn:Hch.
  2:{ exists (connection_metadata m), []. split; [destruct m; reflexivity |].
      split; [| reflexivity].
      intros x. rewrite elem_of_nil. split; [tauto |].
      intros [(s & Hs & _) _]. congruence. }
  destruct (elements members) as [| c rest] eqn:Hel.
  { exists (connection_metadata m), []. split; [destruct m; reflexivity |].
    split; [| reflexivity].
    intros x. rewrite elem_of_nil. split; [tauto |].
    intros [(s & Hs & Hx) _]. rewrite Hch in Hs. inversion Hs; subst s.
    apply elem_of_elements in Hx. rewrite Hel in Hx. inversion Hx. }
  rewrite <- Hel.
  destruct (check_states peers (elements members)) as [valid dropped0] eqn:Hcs.
  destruct (process_results _ _ dropped0) as [md' dropped] eqn:Hpr.
  exists md', dropped. split; [reflexivity |].
  split; [| intros x; apply (process_results_spec _ _ _ _ _ _ Hpr x)].
  intros x.
  destruct (process_results_spec _ _ _ _ _ _ Hpr x) as [Hd _].
  destruct (check_states_spec _ _ _ _ Hcs x) as [Hv Hd0].
  rewrite Hd, Hv, Hd0, elem_of_elements. unfold marked, member.
  rewrite Hch. split.
  - intros [[Hx Hp] | [[Hx Hp] Hf]]; (split; [eauto |]).
    + rewrite Hp. reflexivity.
    + rewrite Hf. apply orb_true_r.
  - intros [(s & Hs & Hx) Hm]. inversion Hs; subst s.
    destruct (probe_ok (probe (peers x))); cbn in Hm; [right | left]; tauto.
Qed.

Lemma member_broadcast peers chan m ch x :
  member (broadcast peers chan m) ch x
  <-> member m ch x /\ ~ (member m chan x /\ marked peers x = true).
Proof.
  destruct (broadcast_shape peers chan m) as (md' & dropped & -> & Hd & _).
  rewrite member_disconnect_all, Hd. reflexivity.
Qed.

Lemma metadata_broadcast_kept peers chan m x :
  marked peers x = false -> send (peers x) <> Delivered ->
  connection_metadata (broadcast peers chan m) !! x = connection_metadata m !! x.
Proof.
  intros Hm Hs.
  destruct (broadcast_shape peers chan m) as (md' & dropped & -> & Hd & Hmd).
  rewrite metadata_disconnect_all. cbn [connection_metadata].
  rewrite decide_False; [apply Hmd, Hs |].
  rewrite Hd. intros [_ H]. congruence.
Qed.

Lemma metadata_broadcast_evicted peers chan m x :
  member m chan x -> marked peers x = true ->
  connection_metadata (broadcast peers chan m) !! x = None.
Proof.
  intros Hin Hm.
  destruct (broadcast_shape peers chan m) as (md' & dropped & -> & Hd & Hmd).
  rewrite metadata_disconnect_all. apply decide_True. apply Hd. auto.
Qed.


(** Membership in a raw channel map. *)
Definition mem (chs : gmap string (gset WebSocket)) (chan : string)
    (x : WebSocket) : Prop :=
  exists members, chs !! chan = Some members /\ x ∈ members.

Lemma mem_alter_add w c chs chan x :
  mem (alter (fun members => members ∪ {[w]}) c chs) chan x
  <-> mem chs chan x \/ (chan = c /\ x = w /\ is_Some (chs !! c)).
Proof.
  unfold mem. destruct (decide (chan = c)) as [-> | Hne].
  - rewrite lookup_alter_eq. destruct (chs !! c) as [s |] eqn:E; cbn.
    + split.
      * intros (s' & Hs & Hx). inversion Hs; subst s'.
        apply elem_of_union in Hx as [Hx | Hx]; [left; eauto |].
        apply elem_of_singleton in Hx. right. eauto.
      * intros [(s' & Hs & Hx) | (_ & -> & _)]; eexists; (split; [reflexivity |]).
        -- inversion Hs; subst s'. apply elem_of_union. auto.
        -- apply elem_of_union. right. apply elem_of_singleton. reflexivity.
    + split.
      * intros (s' & Hs & _). discriminate.
      * intros [(s' & Hs & _) | (_ & _ & [s' Hs])]; discriminate.
  - rewrite lookup_alter_ne by congruence. split; [auto |].
    intros [H | (Heq & _)]; [exact H | congruence].
Qed.

Lemma mem_alter_remove w c chs chan x :
  mem (alter (fun members => members ∖ {[w]}) c chs) chan x
  <-> mem chs chan x /\ ~ (chan = c /\ x = w).
Proof.
  unfold mem. destruct (decide (chan = c)) as [-> | Hne].
  - rewrite lookup_alter_eq. destruct (chs !! c) as [s |] eqn:E; cbn.
    + split.
      * intros (s' & Hs & Hx). inversion Hs; subst s'.
        apply elem_of_difference in Hx as [Hx Hn]. split; [eauto |].
        intros [_ ->]. apply Hn, elem_of_singleton. reflexivity.
      * intros [(s' & Hs & Hx) Hn]. inversion Hs; subst s'.
        eexists. split; [reflexivity |]. apply elem_of_difference.
        split; [exact Hx |]. rewrite elem_of_singleton. intros ->. auto.
    + split.
      * intros (s' & Hs & _). discriminate.
      * intros [(s' & Hs & _) _]. discriminate.
  - rewrite lookup_alter_ne by congruence. split; [| tauto].
    intros H. split; [exact H |]. intros [Heq _]. congruence.
Qed.

Lemma mem_insert_empty c chs chan x :
  chs !! c = None -> mem (<[c := ∅]> chs) chan x <-> mem chs chan x.
Proof.
  intros Hnone. unfold mem. destruct (decide (chan = c)) as [-> | Hne].
  - rewrite lookup_insert_eq, Hnone. split.
    + intros (s & Hs & Hx). inversion Hs; subst s.
      set_solver.
    + intros (s & Hs & _). discriminate.
  - rewrite lookup_insert_ne by congruence. reflexivity.
Qed.

Lemma mem_insert_add w c s chs chan x :
  chs !! c = Some s ->
  mem (<[c := s ∪ {[w]}]> chs) chan x <-> mem chs chan x \/ (chan = c /\ x = w).
Proof.
  intros Hs. unfold mem. destruct (decide (chan = c)) as [-> | Hne].
  - rewrite lookup_insert_eq, Hs. split.
    + intros (s' & Hs' & Hx). inversion Hs'; subst s'.
      apply elem_of_union in Hx as [Hx | Hx]; [left; eauto |].
      apply elem_of_singleton in Hx. auto.
    + intros [(s' & Hs' & Hx) | (_ & ->)]; eexists; (split; [reflexivity |]).
      * inversion Hs'; subst s'. apply elem_of_union. auto.
      * apply elem_of_union. right. apply elem_of_singleton. reflexivity.
  - rewrite lookup_insert_ne by congruence. split; [auto |].
    intros [H | (Heq & _)]; [exact H | congruence].
Qed.

(** The bus is well formed when the channel [all] exists and covers every
    other channel (E2). *)
Definition well_formed (m : ConnectionManager) : Prop :=
  is_Some (channels m !! "all") /\ all_covers m.

Lemma well_formed_channels m m' :
  channels m' = channels m -> well_formed m -> well_formed m'.
Proof.
  unfold well_formed, all_covers, member. intros ->. auto.
Qed.

Lemma well_formed_disconnect w m : well_formed m -> well_formed (disconnect w m).
Proof.
  intros [Hall Hcov]. split.
  - unfold disconnect. cbn [channels]. rewrite lookup_fmap.
    destruct Hall as [s ->]. cbn. eauto.
  - intros chan x. rewrite !member_disconnect. intros [Hm Hne].
    split; [eapply Hcov, Hm | exact Hne].
Qed.

Lemma well_formed_disconnect_all l m :
  well_formed m -> well_formed (disconnect_all l m).
Proof.
  revert m. induction l as [| w l IH]; intros m H; [exact H |].
  cbn [disconnect_all foldl]. apply IH, well_formed_disconnect, H.
Qed.

Lemma well_formed_send r w m :
  well_formed m -> well_formed (send_personal_message r w m).
Proof.
  intros H. destruct r; cbn [send_personal_message].
  - eapply well_formed_channels; [| exact H]. reflexivity.
  - apply well_formed_disconnect, H.
Qed.

Lemma well_formed_broadcast peers chan m :
  well_formed m -> well_formed (broadcast peers chan m).
Proof.
  intros H. destruct (broadcast_shape peers chan m) as (md' & dropped & -> & _).
  apply well_formed_disconnect_all.
  eapply well_formed_channels; [| exact H]. reflexivity.
Qed.

Lemma well_formed_connect accepted welcomed now w chan m :
  well_formed m -> well_formed (fst (connect accepted welcomed now w chan m)).
Proof.
  intros [Hall Hcov]. unfold connect.
  destruct accepted as [[] | e]; [| split; assumption].
  set (created := match channels m !! chan with
                  | None => <[chan := ∅]> (channels m)
                  | Some _ => channels m
                  end).
  assert (Hcreated : forall ch x, mem created ch x <-> mem (channels m) ch x).
  { intros ch x. subst created.
    destruct (channels m !! chan) eqn:E; [reflexivity |].
    apply mem_insert_empty, E. }
  assert (Hsome : is_Some (created !! chan)).
  { subst created. destruct (channels m !! chan) eqn:E; [rewrite E; eauto |].
    rewrite lookup_insert_eq. eauto. }
  assert (Hall' : is_Some (created !! "all")).
  { subst created. destruct (channels m !! chan) eqn:E; [exact Hall |].
    destruct (decide (chan = "all")) as [-> | Hne];
      [rewrite lookup_insert_eq; eauto |].
    rewrite lookup_insert_ne by congruence. exact Hall. }
  set (joined := alter (fun members => members ∪ {[w]}) chan created).
  assert (Hjall : is_Some (joined !! "all")).
  { subst joined. destruct (decide (chan = "all")) as [-> | Hne].
    - rewrite lookup_alter_eq. destruct Hall' as [s ->]. cbn. eauto.
    - rewrite lookup_alter_ne by congruence. exact Hall'. }
  destruct (joined !! "all") as [everyone |] eqn:Hj; [| destruct Hjall; discriminate].
  cbn [fst]. apply well_formed_send. split.
  - cbn [channels]. rewrite lookup_insert_eq. eauto.
  - intros ch x. unfold member. cbn [channels].
    fold (mem (<["all" := everyone ∪ {[w]}]> joined) ch x).
    fold (mem (<["all" := everyone ∪ {[w]}]> joined) "all" x).
    rewrite !(mem_insert_add _ _ _ _ _ _ Hj). subst joined.
    rewrite !mem_alter_add, !Hcreated.
    intros [[Hm | (_ & -> & _)] | (_ & ->)]; [| right; auto | right; auto].
    left. left. exact (Hcov ch x Hm).
Qed.

(** *** Eviction on publish *)

(** Scenario 6 of the specification: three subscribers of [all], the third
    of which never acknowledges. *)
Definition three_subscribers : ConnectionManager :=
  fst (connect (Ok tt) (Ok tt) 0 3 "all"
        (fst (connect (Ok tt) (Ok tt) 0 2 "all"
               (fst (connect (Ok tt) (Ok tt) 0 1 "all" init))))).

Definition third_is_slow (x : WebSocket) : peer :=
  {| probe := ClientState CONNECTED;
     send := if decide (x = 3%positive) then TimedOut else Delivered |}.

(** C1 (P7), as stated, fails: a subscriber whose send times out at the
    deadline is still a member of the channel, and still has its metadata,
    after the publish; the channel [all] keeps its three subscribers. *)
Lemma timed_out_subscriber_stays :
  channels three_subscribers !! "all" = Some {[1%positive; 2%positive; 3%positive]}
  /\ send (third_is_slow 3) = TimedOut
  /\ channels (broadcast third_is_slow "all" three_subscribers) !! "all"
     = Some {[1%positive; 2%positive; 3%positive]}
  /\ messages_sent <$>
       connection_metadata (broadcast third_is_slow "all" three_subscribers) !! 3%positive
     = Some 1%nat
  /\ length (active_connections (broadcast third_is_slow "all" three_subscribers))
     = 3%nat.
Proof. repeat split; vm_compute; reflexivity. Qed.

(** C1, amended: on every publish to a channel, a subscriber of that
    channel whose send raises, or whose state is observed not to be
    [CONNECTED], is evicted: afterwards it is in no channel and has no
    metadata.  A subscriber whose send times out is not evicted: it is in
    exactly the channels it was in, with its metadata unchanged. *)
Theorem broadcast_evicts_failed_keeps_timed_out peers chan m x :
  member m chan x ->
  (marked peers x = true ->
     (forall ch, ~ member (broadcast peers chan m) ch x)
     /\ connection_metadata (broadcast peers chan m) !! x = None)
  /\ (probe_ok (probe (peers x)) = true -> send (peers x) = TimedOut ->
       (forall ch, member (broadcast peers chan m) ch x <-> member m ch x)
       /\ connection_metadata (broadcast peers chan m) !! x
          = connection_metadata m !! x).
Proof.
  intros Hin. split.
  - intros Hm. split; [| apply metadata_broadcast_evicted; assumption].
    intros ch. rewrite member_broadcast. tauto.
  - intros Hp Hs.
    assert (Hm : marked peers x = false).
    { unfold marked. rewrite Hp, Hs. reflexivity. }
    split.
    + intros ch. rewrite member_broadcast. split; [tauto |].
      intros H. split; [exact H |]. intros [_ H']. congruence.
    + apply metadata_broadcast_kept; [exact Hm |]. rewrite Hs. discriminate.
Qed.

Definition second_fails (x : WebSocket) : peer :=
  {| probe := ClientState CONNECTED;
     send := if decide (x = 2%positive) then Failed (WebSocketError "closed")
             else if decide (x = 3%positive) then TimedOut else Delivered |}.

Lemma three_subscribers_all x :
  x ∈ ({[1%positive; 2%positive; 3%positive]} : gset positive) ->
  member three_subscribers "all" x.
Proof.
  intros Hx. exists {[1%positive; 2%positive; 3%positive]}.
  split; [vm_compute; reflexivity | exact Hx].
Qed.

Lemma broadcast_evicts_failed_keeps_timed_out_witness :
  ((forall ch, ~ member (broadcast second_fails "all" three_subscribers) ch 2%positive)
   /\ connection_metadata (broadcast second_fails "all" three_subscribers) !! 2%positive
      = None)
  /\ ((forall ch, member (broadcast second_fails "all" three_subscribers) ch 3%positive
                  <-> member three_subscribers ch 3%positive)
      /\ connection_metadata (broadcast second_fails "all" three_subscribers) !! 3%positive
         = connection_metadata three_subscribers !! 3%positive).
Proof.
  split.
  - apply (broadcast_evicts_failed_keeps_timed_out second_fails "all"
             three_subscribers 2%positive);
      [apply three_subscribers_all; set_solver | reflexivity].
  - apply (broadcast_evicts_failed_keeps_timed_out second_fails "all"
             three_subscribers 3%positive);
      [apply three_subscribers_all; set_solver | reflexivity | reflexivity].
Defined.

(** *** E2 *)

(** A subscriber of [trading] (and so of [all]). *)
Definition one_trader : ConnectionManager :=
  fst (connect (Ok tt) (Ok tt) 0 1 "trading" init).

Lemma well_formed_init : well_formed init.
Proof.
  split; [vm_compute; eauto |].
  intros chan x (members & Hs & Hx). exfalso. unfold init in Hs. cbn [channels] in Hs.
  repeat (rewrite lookup_insert in Hs;
          destruct (decide _) in Hs; [inversion Hs; subst; set_solver |]).
  rewrite lookup_empty in Hs. discriminate.
Qed.

(** C8 (E2), as stated, fails: after [unsubscribe] from [all], a subscriber
    of [trading] is no longer in [all]. *)
Lemma unsubscribe_all_uncovers :
  channels one_trader !! "trading" = Some {[1%positive]}
  /\ channels one_trader !! "all" = Some {[1%positive]}
  /\ channels (apply (OpMessage (Ok tt) (Unsubscribe (Some "all")) 1) one_trader)
       !! "trading" = Some {[1%positive]}
  /\ channels (apply (OpMessage (Ok tt) (Unsubscribe (Some "all")) 1) one_trader)
       !! "all" = Some ∅
  /\ all_covers one_trader
  /\ ~ all_covers (apply (OpMessage (Ok tt) (Unsubscribe (Some "all")) 1) one_trader).
Proof.
  assert (Hall : channels (apply (OpMessage (Ok tt) (Unsubscribe (Some "all")) 1)
                             one_trader) !! "all" = Some ∅)
    by (vm_compute; reflexivity).
  assert (Htr : channels (apply (OpMessage (Ok tt) (Unsubscribe (Some "all")) 1)
                            one_trader) !! "trading" = Some {[1%positive]})
    by (vm_compute; reflexivity).
  repeat split; try (vm_compute; reflexivity).
  - apply well_formed_connect, well_formed_init.
  - intros Hcov.
    destruct (Hcov "trading" 1%positive) as (members & Hm & Hin).
    + exists {[1%positive]}. split; [exact Htr | set_solver].
    + rewrite Hall in Hm. inversion Hm; subst members. set_solver.
Qed.

(** The operations under which E2 is kept: a subscription is asked by a
    subscriber that is in [all], and [all] is not what is unsubscribed. *)
Definition respects_all (op : operation) (m : ConnectionManager) : Prop :=
  match op with
  | OpMessage _ (Subscribe _) websocket => member m "all" websocket
  | OpMessage _ (Unsubscribe chan) _ => chan <> Some "all"
  | _ => True
  end.

(** C8, amended: E2 (with the existence of the channel [all]) is kept by
    connect, disconnect and publish with eviction, by [subscribe] when the
    subscriber is in [all], and by [unsubscribe] from any channel other
    than [all]. *)
Theorem all_covers_preserved op m :
  is_Some (channels m !! "all") -> all_covers m -> respects_all op m ->
  is_Some (channels (apply op m) !! "all") /\ all_covers (apply op m).
Proof.
  intros Hall Hcov Hop. assert (Hwf : well_formed m) by (split; assumption).
  change (well_formed (apply op m)).
  destruct op as [accepted welcomed now w chan | replied msg w | w | peers chan];
    cbn [apply].
  - apply well_formed_connect, Hwf.
  - destruct msg as [ts | new | old | | mt |]; cbn [handle_message];
      try (apply well_formed_send, Hwf).
    + destruct (known_channel new m) eqn:Hk; [| exact Hwf].
      apply well_formed_send. split; cbn [channels].
      * destruct (decide (default "" new = "all")) as [-> | Hne].
        -- rewrite lookup_alter_eq. destruct Hall as [s ->]. cbn. eauto.
        -- rewrite lookup_alter_ne by congruence. exact Hall.
      * intros ch x. unfold member. cbn [channels].
        fold (mem (alter (fun members => members ∪ {[w]}) (default "" new) (channels m)) ch x).
        fold (mem (alter (fun members => members ∪ {[w]}) (default "" new) (channels m)) "all" x).
        rewrite !mem_alter_add.
        intros [Hm | (_ & -> & _)]; left; [exact (Hcov ch x Hm) | exact Hop].
    + destruct (known_channel old m) eqn:Hk; [| exact Hwf].
      assert (Hne : default "" old <> "all").
      { destruct old as [s |]; [| discriminate]. cbn. cbn in Hop. congruence. }
      apply well_formed_send. split; cbn [channels].
      * rewrite lookup_alter_ne by congruence. exact Hall.
      * intros ch x. unfold member. cbn [channels].
        fold (mem (alter (fun members => members ∖ {[w]}) (default "" old) (channels m)) ch x).
        fold (mem (alter (fun members => members ∖ {[w]}) (default "" old) (channels m)) "all" x).
        rewrite !mem_alter_remove.
        intros [Hm _]. split; [exact (Hcov ch x Hm) |].
        intros [Heq _]. congruence.
  - apply well_formed_disconnect, Hwf.
  - apply well_formed_broadcast, Hwf.
Qed.

Lemma all_covers_preserved_witness :
  is_Some (channels (apply (OpMessage (Ok tt) (Unsubscribe (Some "trading")) 1)
                       one_trader) !! "all")
  /\ all_covers (apply (OpMessage (Ok tt) (Unsubscribe (Some "trading")) 1) one_trader).
Proof.
  apply (all_covers_preserved
           (OpMessage (Ok tt) (Unsubscribe (Some "trading")) 1) one_trader).
  - apply well_formed_connect, well_formed_init.
  - apply well_formed_connect, well_formed_init.
  - cbn. discriminate.
Defined.

End BusFacts.

(** ** Fan-out, reconciliation and the position monitor *)

Module OrchestratorFacts.

Import SessionManager OrderOrchestrator.

(** A broker that is never reached and a database that never fails. *)
Definition idle_world : world :=
  {| get_balance := fun _ => Raise (MatchTradeAPIError "unreachable");
     open_position := fun _ _ _ _ => Raise (MatchTradeAPIError "unreachable");
     get_opened_positions := fun _ => Raise (MatchTradeAPIError "unreachable");
     close_position := fun _ _ => Raise (MatchTradeAPIError "unreachable");
     order_commit := fun _ => None;
     trade_faults := fun _ _ => no_faults;
     lookup_faults := fun _ _ => no_faults |}.

Definition empty_db : db_session :=
  {| stored := {| orders := []; trades := [] |};
     view := {| orders := []; trades := [] |} |}.

Definition signal_of (act : string) : signal :=
  {| action := act; s_symbol := Some "BTCUSD"; s_volume := 1 # 10;
     s_stop_loss := None; s_take_profit := None |}.

(** *** Fan-out over no session *)

(** C3, as stated, fails: with no active session, each of the four actions
    is answered ["success": False]. *)
Lemma empty_fan_out_is_refused :
  snd (execute_signal_for_all idle_world 0 (signal_of "OPEN_LONG") (Ok []) empty_db)
  = Ok (NotExecuted "No active sessions")
  /\ snd (execute_signal_for_all idle_world 0 (signal_of "OPEN_SHORT") (Ok []) empty_db)
     = Ok (NotExecuted "No active sessions")
  /\ snd (execute_signal_for_all idle_world 0 (signal_of "CLOSE") (Ok []) empty_db)
     = Ok (NotExecuted "No active sessions")
  /\ snd (execute_signal_for_all idle_world 0 (signal_of "CLOSE_ALL") (Ok []) empty_db)
     = Ok (NotExecuted "No active sessions")
  /\ response_success (NotExecuted "No active sessions") = false.
Proof. repeat split. Qed.

(** C3, amended: when [execute_signal_for_all] is called with any signal and
    the list of active sessions is empty, it returns ["success": False] with
    the error ["No active sessions"], [executed_count] 0 and [failed_count]
    0, and writes nothing. *)
Theorem empty_fan_out_reports_no_sessions w now sig db :
  execute_signal_for_all w now sig (get_active_sessions (Ok [])) db
  = (db, Ok (NotExecuted "No active sessions"))
  /\ response_success (NotExecuted "No active sessions") = false
  /\ response_executed_count (NotExecuted "No active sessions") = Some 0%nat.
Proof. repeat split. Qed.

(** *** Symbol-fallback reconciliation *)







(** Two open orders of user 2 on the same symbol, created at the same
    instant, and a close reported under a handle no local row carries
    (scenario 3 of the specification, with a second candidate). *)
Definition open_order (oid : Z) : Order :=
  {| id := oid; user_id := 2; order_uuid := None; symbol := "BTCUSD";
     side := "LONG"; quantity := Some (1 # 10); entry_price := Some 50000%Q;
     stop_loss := None; take_profit := None; status := Some "OPEN";
     created_at := 100; executed_at := Some 100; closed_at := None |}.

Definition two_open_orders : db_session :=
  {| stored := {| orders := [open_order 1; open_order 2]; trades := [] |};
     view := {| orders := [open_order 1; open_order 2]; trades := [] |} |}.

Definition position_X : position :=
  {| p_id := Some "X"; p_uuid := None; positionId := None;
     p_symbol := Some "BTCUSD"; p_entry_price := None; openPrice := Some 50000%Q;
     close_price := None; volume := Some (1 # 10); profit := Some 0%Q;
     profitLoss := None |}.

Definition closed_at_par : close_result :=
  {| closePrice := Some 50000%Q; c_profit := Some 0%Q; c_profitLoss := None;
     c_commission := None |}.





(** *** The auto-close policy *)





(** An order of user 2 executed at instant 0 and its position, 310 s later,
    150 in profit; a broker that lists the position and refuses to close. *)
Definition held_order : Order :=
  {| id := 1; user_id := 2; order_uuid := Some "X"; symbol := "BTCUSD";
     side := "LONG"; quantity := Some (1 # 10); entry_price := Some 50000%Q;
     stop_loss := None; take_profit := None; status := Some "OPEN";
     created_at := 0; executed_at := Some 0; closed_at := None |}.


Definition one_held_order : db_session :=
  {| stored := {| orders := [held_order]; trades := [] |};
     view := {| orders := [held_order]; trades := [] |} |}.


Definition session_of_user_2 : session_dict :=
  {| sd_session_id := 1; sd_user_id := 2; sd_token := Some "t";
     sd_trading_api_token := Some "tt" |}.




(** *** Failures while recording a trade *)

Lemma record_trade_never_raises faults now uid p c db :
  snd (_record_trade faults now uid p c db) = Ok tt.
Proof.
  unfold _record_trade.
  destruct (record_trade_body faults now uid p c db) as [db' [[] | e]]; reflexivity.
Qed.

Lemma record_trade_failure_keeps_store faults now uid p c db e :
  snd (record_trade_body faults now uid p c db) = Raise e ->
  stored (fst (_record_trade faults now uid p c db)) = stored db.
Proof.
  unfold _record_trade, record_trade_body.
  destruct (find_order faults true uid p db) as [[order |] | e']; cbn.
  - destruct (on_commit faults); cbn; [reflexivity | discriminate].
  - discriminate.
  - reflexivity.
Qed.

(** The positions [_close_positions_for_user] closes: those listed, of the
    symbol when one is given. *)
Definition selected (sym : option string) (listed : list position) : list position :=
  if truthy_str sym
  then filter (fun p => eqb_ostr (p_symbol p) sym = true) listed
  else listed.

(** C10: whatever fails inside [_record_trade] (the look-up of the order,
    the fall-back query, the commit), [_record_trade] returns normally; when
    its body raised, the committed tables are what they were, so the order
    keeps its status and no trade is inserted.  The per-user close still
    reports success and counts every position the broker closed, whatever
    happened while recording. *)
Theorem record_trade_failures_are_swallowed w now sym session db listed :
  session_tokens session = Ok (default "" (sd_token session),
                               default "" (sd_trading_api_token session)) ->
  get_opened_positions w session = Ok listed ->
  (forall faults uid p c db0,
     snd (_record_trade faults now uid p c db0) = Ok tt
     /\ (raises (snd (record_trade_body faults now uid p c db0)) = true ->
         stored (fst (_record_trade faults now uid p c db0)) = stored db0))
  /\ snd (_close_positions_for_user w now sym session db)
     = Ok {| c_success := true;
             c_user_id := Some (sd_user_id session);
             c_closed_count :=
               Some (length (filter (fun r => raises r = false)
                               (gather (fun p => close_position w session
                                                   (or_str (p_id p) (p_uuid p)))
                                       (selected sym listed))));
             c_error := None |}.
Proof.
  intros Htok Hget. split.
  - intros faults uid p c db0. split; [apply record_trade_never_raises |].
    destruct (snd (record_trade_body faults now uid p c db0)) as [u | e] eqn:E;
      [discriminate |].
    intros _. eapply record_trade_failure_keeps_store, E.
  - unfold _close_positions_for_user. rewrite Htok, Hget.
    fold (selected sym listed).
    destruct (selected sym listed) as [| p rest]; reflexivity.
Qed.

(** The broker closes the position of scenario 3; the commit of the trade
    fails. *)
Definition commit_fails : db_faults :=
  {| on_select := None; on_fallback := None;
     on_commit := Some (SQLAlchemyError "connection lost") |}.

Definition closing_world : world :=
  {| get_balance := fun _ => Ok (Some 8000%Q);
     open_position := fun _ _ _ _ => Raise (MatchTradeAPIError "rejected");
     get_opened_positions := fun _ => Ok [position_X];
     close_position := fun _ _ => Ok closed_at_par;
     order_commit := fun _ => None;
     trade_faults := fun _ _ => commit_fails;
     lookup_faults := fun _ _ => no_faults |}.

Lemma record_trade_failures_are_swallowed_witness :
  snd (_close_positions_for_user closing_world 400 None session_of_user_2
         two_open_orders)
  = Ok {| c_success := true; c_user_id := Some 2; c_closed_count := Some 1%nat;
          c_error := None |}
  /\ stored (fst (_record_trade commit_fails 400 2 position_X closed_at_par
                    two_open_orders))
     = stored two_open_orders
  /\ fst (_close_positions_for_user closing_world 400 None session_of_user_2
            two_open_orders)
     = two_open_orders.
Proof.
  destruct (record_trade_failures_are_swallowed closing_world 400 None
              session_of_user_2 two_open_orders [position_X] eq_refl eq_refl)
    as [Hrec Hclose].
  split; [exact Hclose |]. split; [| vm_compute; reflexivity].
  apply (Hrec commit_fails 2 position_X closed_at_par two_open_orders).
  reflexivity.
Defined.

End OrchestratorFacts.

(** ** The collection entry points *)

Module CollectionFacts.

Import SessionManager OrderOrchestrator.






(** Two active sessions, and two runs of the refresh coroutine that fail
    for a different one. *)
Definition session_of (uid : Z) : UserSession :=
  {| us_id := uid; us_user_id := uid; us_token := "t"; us_trading_api_token := "tt";
     us_trading_account_id := None; us_login_at := 0; expires_at := Some 0;
     us_is_active := true; last_refresh_at := None |}.




End CollectionFacts.

(** ** The seed scenarios of the specification, run on the model *)

Module Scenarios.

Import SessionManager OrderOrchestrator OrchestratorFacts.

Definition session_with_tokens (uid : Z) : session_dict :=
  {| sd_session_id := uid; sd_user_id := uid; sd_token := Some "t";
     sd_trading_api_token := Some "tt" |}.

Definition filled (handle : string) : position :=
  {| p_id := Some handle; p_uuid := None; positionId := None;
     p_symbol := Some "BTCUSD"; p_entry_price := None; openPrice := Some 50000%Q;
     close_price := None; volume := None; profit := None; profitLoss := None |}.

(** User 1 holds 500, user 2 holds 8000; every order is filled. *)
Definition two_accounts : world :=
  {| get_balance := fun s => Ok (Some (if sd_user_id s =? 1 then 500 else 8000)%Q);
     open_position := fun s _ _ _ =>
       Ok (filled (if sd_user_id s =? 1 then "A" else "B"));
     get_opened_positions := fun _ => Ok [];
     close_position := fun _ _ => Raise (MatchTradeAPIError "no such position");
     order_commit := fun _ => None;
     trade_faults := fun _ _ => no_faults;
     lookup_faults := fun _ _ => no_faults |}.

(** Scenario 2: OPEN_LONG BTCUSD, volume 0.1, over balances 500 and 8000. *)
Example fan_out_sizes_per_account :
  let '(db, report) :=
    _execute_open_orders two_accounts 0 (signal_of "OPEN_LONG")
      [session_with_tokens 1; session_with_tokens 2] empty_db in
  executed_count report = 2%nat
  /\ o_volume <$> successful_orders report = [Some (1 # 100); Some (1 # 10)]
  /\ (fun o => (user_id o, status o, order_uuid o)) <$> orders (stored db)
     = [(1, Some "OPEN", Some "A"); (2, Some "OPEN", Some "B")].
Proof. vm_compute. repeat split; reflexivity. Qed.

(** The sessions handed over by [get_active_sessions] carry no token: every
    per-session coroutine raises [KeyError], which the gather collects. *)
Example fan_out_over_snapshot :
  snd (execute_signal_for_all two_accounts 0 (signal_of "OPEN_LONG")
         (get_active_sessions (Ok [CollectionFacts.session_of 1;
                                   CollectionFacts.session_of 2]))
         empty_db)
  = Ok (Opened {| executed_count := 0; failed_count := 2; total_volume := 0;
                  successful_orders := [];
                  failed_orders := [order_failure None (KeyError "token");
                                    order_failure None (KeyError "token")] |}).
Proof. vm_compute. reflexivity. Qed.

(** Scenario 5: a position held for 310 s with no profit is closed by the
    tick, and the trade lasts 310 s. *)
Definition flat : position :=
  {| p_id := Some "X"; p_uuid := None; positionId := None;
     p_symbol := Some "BTCUSD"; p_entry_price := None; openPrice := Some 50000%Q;
     close_price := None; volume := Some (1 # 10); profit := Some 0%Q;
     profitLoss := None |}.

Definition compliant_world : world :=
  {| get_balance := fun _ => Ok (Some 8000%Q);
     open_position := fun _ _ _ _ => Raise (MatchTradeAPIError "rejected");
     get_opened_positions := fun _ => Ok [flat];
     close_position := fun _ _ => Ok closed_at_par;
     order_commit := fun _ => None;
     trade_faults := fun _ _ => no_faults;
     lookup_faults := fun _ _ => no_faults |}.

Example held_too_long_is_closed :
  let '(db, result) :=
    monitor_positions_once compliant_world 310000000 (Ok [session_of_user_2])
      one_held_order in
  result = Ok {| checked := 1; m_closed := 1; errors := 0 |}
  /\ (fun t => (order_id t, duration_seconds t)) <$> trades (stored db)
     = [(1, Some 310)]
  /\ status <$> orders (stored db) = [Some "CLOSED"].
Proof. vm_compute. repeat split; reflexivity. Qed.

End Scenarios.

(** ** The broker client's retry loop *)

Module ApiClientFacts.

Import ApiClient.

Section Facts.

Context {D : Type} (show : D -> string).

(** The delays slept before attempts [first+1 .. first+n]. *)
Definition backoff (first n : nat) : list Z :=
  (fun j => 2 ^ Z.of_nat j) <$> seq first n.

Definition total (delays : list Z) : Z := foldr Z.add 0 delays.

Definition is_client_error (o : outcome D) : bool :=
  match o with
  | ClientError _ => true
  | Responded _ _ | OtherException _ => false
  end.

(** What [_request] does with an answer that is not a [ClientError]. *)
Definition verdict (o : outcome D) : res (option D) :=
  match o with
  | Responded status response_data =>
      if status =? 200 then Ok (Some response_data)
      else Raise (MatchTradeAPIError
                    ("Unexpected error: " +:+ status_message D show status response_data))
  | OtherException msg => Raise (MatchTradeAPIError ("Unexpected error: " +:+ msg))
  | ClientError msg => Raise (MatchTradeAPIError ("Network error: " +:+ msg))
  end.

Lemma backoff_snoc first n :
  backoff first (S n) = backoff first n ++ [2 ^ Z.of_nat (first + n)].
Proof.
  unfold backoff. rewrite seq_S, fmap_app. reflexivity.
Qed.

Lemma backoff_cons first n :
  backoff first (S n) = 2 ^ Z.of_nat first :: backoff (S first) n.
Proof. reflexivity. Qed.

Lemma total_app a b : total (a ++ b) = total a + total b.
Proof.
  unfold total. induction a as [| x a IH]; cbn; [reflexivity | rewrite IH; lia].
Qed.

Lemma total_backoff n : total (backoff 0 n) = 2 ^ Z.of_nat n - 1.
Proof.
  induction n as [| n IH]; [reflexivity |].
  rewrite backoff_snoc, total_app, IH. cbn [total foldr Nat.add].
  rewrite Nat2Z.inj_succ, Z.pow_succ_r by lia. lia.
Qed.

Lemma request_from_step max_retries net remaining attempt slept :
  request_from D show max_retries net (S remaining) attempt slept
  = match net attempt with
    | Responded status response_data =>
        if status =? 200 then (slept, Ok (Some response_data))
        else (slept, Raise (MatchTradeAPIError
                              ("Unexpected error: "
                               +:+ status_message D show status response_data)))
    | ClientError msg =>
        if (attempt =? max_retries - 1)%nat
        then (slept, Raise (MatchTradeAPIError ("Network error: " +:+ msg)))
        else request_from D show max_retries net remaining (S attempt)
                          (slept ++ [2 ^ Z.of_nat attempt])
    | OtherException msg =>
        (slept, Raise (MatchTradeAPIError ("Unexpected error: " +:+ msg)))
    end.
Proof. reflexivity. Qed.

Lemma request_from_first_answer max_retries net k :
  forall attempt slept,
    (attempt + k < max_retries)%nat ->
    (forall j, (attempt <= j < attempt + k)%nat -> is_client_error (net j) = true) ->
    is_client_error (net (attempt + k)%nat) = false ->
    request_from D show max_retries net (max_retries - attempt) attempt slept
    = (slept ++ backoff attempt k, verdict (net (attempt + k)%nat)).
Proof.
  induction k as [| k IH]; intros attempt slept Hlt Herr Hans.
  - rewrite Nat.add_0_r in *. unfold backoff. cbn [seq fmap list_fmap].
    rewrite app_nil_r.
    destruct (max_retries - attempt)%nat as [| r] eqn:Hr; [lia |].
    cbn [request_from].
    destruct (net attempt) as [status d | msg | msg]; cbn in Hans |- *;
      [destruct (status =? 200); reflexivity | discriminate | reflexivity].
  - destruct (max_retries - attempt)%nat as [| r] eqn:Hr; [lia |].
    cbn [request_from].
    pose proof (Herr attempt ltac:(lia)) as Hfirst.
    destruct (net attempt) as [status d | msg | msg]; try discriminate.
    destruct (Nat.eqb_spec attempt (max_retries - 1)) as [Heq | _]; [lia |].
    replace r with (max_retries - S attempt)%nat by lia.
    rewrite IH.
    + rewrite backoff_cons, <- app_assoc.
      replace (S attempt + k)%nat with (attempt + S k)%nat by lia. reflexivity.
    + lia.
    + intros j Hj. apply Herr. lia.
    + replace (S attempt + k)%nat with (attempt + S k)%nat by lia. exact Hans.
Qed.

Lemma request_from_waits max_retries net remaining :
  forall attempt slept,
    (attempt + remaining = max_retries)%nat ->
    exists n,
      (n = 0 \/ attempt + n <= max_retries - 1)%nat
      /\ fst (request_from D show max_retries net remaining attempt slept)
         = slept ++ backoff attempt n.
Proof.
  induction remaining as [| r IH]; intros attempt slept Hsum.
  - exists 0%nat. split; [lia |]. cbn. rewrite app_nil_r. reflexivity.
  - cbn [request_from].
    destruct (net attempt) as [status d | msg | msg].
    + exists 0%nat. split; [lia |].
      destruct (status =? 200); cbn; rewrite app_nil_r; reflexivity.
    + destruct (Nat.eqb_spec attempt (max_retries - 1)) as [Heq | Hne].
      * exists 0%nat. split; [lia |]. cbn. rewrite app_nil_r. reflexivity.
      * destruct (IH (S attempt) (slept ++ [2 ^ Z.of_nat attempt]) ltac:(lia))
          as (n & Hn & Heq).
        exists (S n). split; [lia |].
        rewrite Heq, backoff_cons, <- app_assoc. reflexivity.
    + exists 0%nat. split; [lia |]. cbn. rewrite app_nil_r. reflexivity.
Qed.

(** X1: The first answer that is not an [aiohttp.ClientError] decides the
    request: a 200 is returned, any other status (401, 400, 410, 5xx) or
    exception is raised as a [MatchTradeAPIError] at once, without another
    attempt; before it, the [k] failed attempts were followed by sleeps of
    1, 2, ..., 2^(k-1) seconds. *)
Theorem request_decided_by_first_answer max_retries net k :
  (k < max_retries)%nat ->
  (forall j, (j < k)%nat -> is_client_error (net j) = true) ->
  is_client_error (net k) = false ->
  _request D show max_retries net = (backoff 0 k, verdict (net k)).
Proof.
  intros Hlt Herr Hans. unfold _request.
  replace max_retries with (max_retries - 0)%nat at 2 by lia.
  rewrite (request_from_first_answer max_retries net k 0 []); [reflexivity | lia | |].
  - intros j Hj. apply Herr. lia.
  - exact Hans.
Qed.

(** X2: Whatever the network does, [_request] sleeps at most [max_retries - 1]
    times, 2^(max_retries - 1) - 1 seconds in all (3 s for the default of
    three attempts). *)
Theorem request_backoff_bounded max_retries net :
  (0 < max_retries)%nat ->
  (length (fst (_request D show max_retries net)) <= max_retries - 1)%nat
  /\ total (fst (_request D show max_retries net))
     <= 2 ^ Z.of_nat (max_retries - 1) - 1.
Proof.
  intros Hpos. unfold _request.
  destruct (request_from_waits max_retries net max_retries 0 [] ltac:(lia))
    as (n & Hn & ->).
  cbn [app]. split.
  - unfold backoff. rewrite length_fmap, length_seq. lia.
  - rewrite total_backoff.
    assert (2 ^ Z.of_nat n <= 2 ^ Z.of_nat (max_retries - 1)); [| lia].
    apply Z.pow_le_mono_r; lia.
Qed.

(** X3: When every attempt ends in an [aiohttp.ClientError], [_request] makes
    [max_retries] attempts, sleeping 1, 2, ... seconds between them, and
    raises the network error of the last one. *)
Theorem request_gives_up max_retries net :
  (0 < max_retries)%nat ->
  (forall j, (j < max_retries)%nat -> is_client_error (net j) = true) ->
  _request D show max_retries net
  = (backoff 0 (max_retries - 1), verdict (net (max_retries - 1)%nat)).
Proof.
  intros Hpos Herr. unfold _request.
  assert (Hgen : forall k attempt slept,
             (attempt + k = max_retries - 1)%nat ->
             request_from D show max_retries net (S k) attempt slept
             = (slept ++ backoff attempt k, verdict (net (max_retries - 1)%nat))).
  { induction k as [| k IH]; intros attempt slept Hsum; rewrite request_from_step.
    - pose proof (Herr attempt ltac:(lia)) as He.
      replace (max_retries - 1)%nat with attempt by lia.
      destruct (net attempt) as [s d | msg | msg]; try discriminate.
      rewrite Nat.eqb_refl.
      cbn. rewrite app_nil_r. reflexivity.
    - pose proof (Herr attempt ltac:(lia)) as He.
      destruct (net attempt) as [s d | msg | msg]; try discriminate.
      destruct (Nat.eqb_spec attempt (max_retries - 1)); [lia |].
      rewrite IH by lia. rewrite backoff_cons, <- app_assoc. reflexivity. }
  destruct max_retries as [| m]; [lia |].
  rewrite (Hgen m 0%nat []) by lia.
  replace (S m - 1)%nat with m by lia. reflexivity.
Qed.

End Facts.

(** A broker that times out twice and then answers 200, or 401. *)
Definition flaky (last : outcome string) (k : nat) : outcome string :=
  if (k <? 2)%nat then ClientError "timeout" else last.

Lemma request_decided_by_first_answer_witness :
  _request string (fun s => s) 3 (flaky (Responded 200 "{}")) = ([1; 2], Ok (Some "{}"))
  /\ _request string (fun s => s) 3 (fun _ => Responded 401 "denied")
     = ([], Raise (MatchTradeAPIError "Unexpected error: Unauthorized: denied")).
Proof.
  split.
  - apply (request_decided_by_first_answer (fun s => s) 3
             (flaky (Responded 200 "{}")) 2).
    + lia.
    + intros j Hj. unfold flaky.
      destruct (Nat.ltb_spec j 2); [reflexivity | lia].
    + reflexivity.
  - apply (request_decided_by_first_answer (fun s => s) 3
             (fun _ => Responded 401 "denied") 0).
    + lia.
    + intros j Hj. lia.
    + reflexivity.
Defined.

Lemma request_backoff_bounded_witness :
  (length (fst (_request string (fun s => s) 3 (flaky (Responded 200 "{}")))) <= 2)%nat
  /\ total (fst (_request string (fun s => s) 3 (flaky (Responded 200 "{}")))) <= 3.
Proof.
  apply (request_backoff_bounded (fun s => s) 3 (flaky (Responded 200 "{}"))). lia.
Defined.

Lemma request_gives_up_witness :
  _request string (fun s => s) 3 (fun _ => ClientError "unreachable")
  = ([1; 2], Raise (MatchTradeAPIError "Network error: unreachable")).
Proof.
  apply (request_gives_up (fun s => s) 3 (fun _ => ClientError "unreachable")).
  - lia.
  - intros j _. reflexivity.
Defined.

End ApiClientFacts.

(** ** The snapshot handed to the fan-out and to the monitor *)

Module SnapshotFacts.

Import SessionManager OrderOrchestrator.

(** The dictionary [get_active_sessions] builds for a row. *)
Definition listed (session : UserSession) : session_dict :=
  {| sd_session_id := us_id session; sd_user_id := us_user_id session;
     sd_token := None; sd_trading_api_token := None |}.












Lemma monitor_sessions_refused w now rows db closed_count error_count :
  monitor_sessions w now (listed <$> rows) db closed_count error_count
  = (db, closed_count, (error_count + length rows)%nat).
Proof.
  revert error_count. induction rows as [| row rows IH]; intros error_count.
  - cbn. rewrite Nat.add_0_r. reflexivity.
  - cbn [fmap list_fmap monitor_sessions]. unfold _check_user_positions at 1.
    cbn [listed session_tokens sd_token]. fold (listed <$> rows).
    rewrite IH. cbn [length]. f_equal. lia.
Qed.

(** X5: The position monitor takes its sessions from [get_active_sessions] too:
    on every tick, whatever the broker reports, it checks no position,
    closes none, writes nothing, and counts one error per active session. *)
Theorem monitor_over_snapshot_checks_nothing w now rows db :
  monitor_positions_once w now (get_active_sessions (Ok rows)) db
  = (db, Ok {| checked := length rows; m_closed := 0; errors := length rows |}).
Proof.
  unfold get_active_sessions. cbn [mbind res_bind]. fold listed.
  destruct rows as [| row rows]; [reflexivity |].
  unfold monitor_positions_once.
  change (map listed (row :: rows)) with (listed row :: (listed <$> rows)).
  change (listed row :: (listed <$> rows)) with (listed <$> (row :: rows)).
  rewrite monitor_sessions_refused. rewrite length_fmap. reflexivity.
Qed.

End SnapshotFacts.

(** ** What the close paths do to the tables *)

Module LedgerFacts.

Import SessionManager OrderOrchestrator OrchestratorFacts.

(** A session without pending changes. *)
Definition clean (db : db_session) : Prop := view db = stored db.

















(** *** Lifting a property of [_record_trade] to the close paths *)

Section Lift.

(** [inv] is kept and [rel] established by [_record_trade]; then so are
    they by every loop that only changes the session through it. *)
Variable inv : db_session -> Prop.
Variable rel : db_session -> db_session -> Prop.
Hypothesis rel_refl : forall db, inv db -> rel db db.
Hypothesis rel_trans : forall a b c, rel a b -> rel b c -> rel a c.
Hypothesis rel_inv : forall a b, inv a -> rel a b -> inv b.
Hypothesis rel_record : forall faults now uid p c db,
  inv db -> rel db (fst (_record_trade faults now uid p c db)).









End Lift.

(** *** Orders are only closed, trades only appended *)




(** *** Closed orders and trades go together *)

(** Every [CLOSED] order has a trade, and every trade is of a [CLOSED]
    order. *)
Definition settled (t : tables) : Prop :=
  (forall o, o ∈ orders t -> status o = Some "CLOSED" ->
             exists tr, tr ∈ trades t /\ order_id tr = id o)
  /\ (forall tr, tr ∈ trades t ->
                 exists o, o ∈ orders t /\ id o = order_id tr
                           /\ status o = Some "CLOSED").





End LedgerFacts.

(** ** What an opening fan-out stores *)

Module OpeningFacts.

Import SessionManager OrderOrchestrator LedgerFacts.







End OpeningFacts.

(** ** The trading endpoints *)

Module TradingApiFacts.

Import SessionManager OrderOrchestrator TradingApi.

(** X9: [POST /trading/close-all] reads ["executed_count"], ["successful_orders"]
    and ["failed_orders"], none of which the closing fan-out returns:
    whatever was closed, the answer says [closed_count] 0 with an empty
    list of results.  It answers 500 only when the list of active sessions
    could not be read. *)
Theorem close_all_reports_no_close w now sym snapshot db :
  match snd (close_all_positions w now sym snapshot db) with
  | Answered body => cp_closed_count body = 0%nat /\ cp_results body = []
  | ServerError why => exists e, snapshot = Raise e /\ why = Uncaught e
  end.
Proof.
  unfold close_all_positions.
  destruct snapshot as [[| s rest] | e]; [cbn; auto | | cbn; eauto].
  set (sig := {| action := "CLOSE"; s_symbol := sym; s_volume := 0;
                 s_stop_loss := None; s_take_profit := None |}).
  change (execute_signal_for_all w now sig (Ok (s :: rest)) db)
    with (let '(db', report) := _execute_close_orders w now sig (s :: rest) db in
          (db', Ok (Closed report))).
  destruct (_execute_close_orders w now sig (s :: rest) db) as [db' report].
  cbn. auto.
Qed.

(** X10: [POST /trading/signal] with a closing action and at least one active
    session runs the closing fan-out and then answers 500: the dictionary
    of [_execute_close_orders] lacks the ["executed_count"] the response
    schema requires. *)
Theorem closing_signal_is_answered_500 w now sig sessions db :
  sessions <> [] ->
  String.eqb (upper (action sig)) "OPEN_LONG"
  || String.eqb (upper (action sig)) "OPEN_SHORT" = false ->
  String.eqb (upper (action sig)) "CLOSE"
  || String.eqb (upper (action sig)) "CLOSE_ALL" = true ->
  execute_trading_signal w now sig (Ok sessions) db
  = (fst (_execute_close_orders w now sig sessions db),
     ServerError (FieldRequired "executed_count")).
Proof.
  intros Hne Hopen Hclose. unfold execute_trading_signal, execute_signal_for_all.
  destruct sessions as [| s rest]; [congruence |].
  rewrite Hopen, Hclose.
  destruct (_execute_close_orders w now sig (s :: rest) db) as [db' report].
  reflexivity.
Qed.

Lemma closing_signal_is_answered_500_witness :
  execute_trading_signal OrchestratorFacts.closing_world 400
    (OrchestratorFacts.signal_of "CLOSE") (Ok [OrchestratorFacts.session_of_user_2])
    OrchestratorFacts.two_open_orders
  = (fst (_execute_close_orders OrchestratorFacts.closing_world 400
            (OrchestratorFacts.signal_of "CLOSE")
            [OrchestratorFacts.session_of_user_2] OrchestratorFacts.two_open_orders),
     ServerError (FieldRequired "executed_count")).
Proof.
  apply closing_signal_is_answered_500; [discriminate | reflexivity | reflexivity].
Defined.




End TradingApiFacts.

(** ** Deliveries on the event bus *)

Module DeliveryFacts.

Import EventBus BusFacts BusEmitters.

(** A connection that is in state [CONNECTED] (or has no state) and whose
    sends are delivered. *)
Definition healthy (peers : WebSocket -> peer) (x : WebSocket) : Prop :=
  probe_ok (probe (peers x)) = true /\ send (peers x) = Delivered.

Lemma lookup_count_message x y md :
  count_message x md !! y
  = if decide (x = y)
    then (fun meta => {| channel := channel meta; connected_at := connected_at meta;
                         messages_sent := S (messages_sent meta) |}) <$> md !! y
    else md !! y.
Proof.
  unfold count_message. destruct (decide (x = y)) as [-> | Hne].
  - apply lookup_alter_eq.
  - apply lookup_alter_ne, Hne.
Qed.

(** The counter of [x] in [md], if [x] has metadata. *)
Definition sent_to (md : gmap WebSocket metadata) (x : WebSocket) : option nat :=
  messages_sent <$> md !! x.

Lemma sent_to_count_message x y md :
  sent_to (count_message x md) y
  = if decide (x = y) then S <$> sent_to md y else sent_to md y.
Proof.
  unfold sent_to. rewrite lookup_count_message.
  destruct (decide (x = y)); [| reflexivity].
  destruct (md !! y); reflexivity.
Qed.

Definition delivered (o : send_outcome) : bool :=
  match o with
  | Delivered => true
  | TimedOut | Failed _ => false
  end.

Lemma delivered_true o : delivered o = true <-> o = Delivered.
Proof. destruct o; cbn; split; congruence. Qed.

Definition in_channel (m : ConnectionManager) (chan : string) (x : WebSocket)
    : bool :=
  match channels m !! chan with
  | Some members => bool_decide (x ∈ members)
  | None => false
  end.

Lemma in_channel_member m chan x : in_channel m chan x = true <-> member m chan x.
Proof.
  unfold in_channel, member. destruct (channels m !! chan) as [s |].
  - rewrite bool_decide_eq_true. split; [eauto |].
    intros (s' & Hs & Hx). inversion Hs; subst. exact Hx.
  - split; [discriminate | intros (s' & Hs & _); discriminate].
Qed.

Lemma process_results_counts peers valid :
  NoDup valid ->
  forall md dropped md' dropped' x,
    process_results
      (zip valid (gather (fun c => _send_with_timeout (send (peers c))) valid))
      md dropped = (md', dropped') ->
    sent_to md' x
    = if bool_decide (x ∈ valid) && delivered (send (peers x))
      then S <$> sent_to md x else sent_to md x.
Proof.
  induction 1 as [| c rest Hc Hnd IH]; intros md dropped md' dropped' x H;
    cbn [gather map zip zip_with process_results] in H.
  - inversion H; subst. reflexivity.
  - fold (gather (fun c => _send_with_timeout (send (peers c))) rest) in H.
    fold (zip rest (gather (fun c => _send_with_timeout (send (peers c))) rest)) in H.
    assert (Hother : c <> x ->
              bool_decide (x ∈ c :: rest) = bool_decide (x ∈ rest)).
    { intros Hne. apply bool_decide_ext. rewrite elem_of_cons.
      split; [intros [-> | Hin]; [congruence | exact Hin] | auto]. }
    destruct (decide (c = x)) as [-> | Hne].
    + rewrite (bool_decide_eq_true_2 _ (list_elem_of_here x rest)).
      assert (Hrest : bool_decide (x ∈ rest) = false)
        by (apply bool_decide_eq_false_2, Hc).
      destruct (send (peers x)) as [| | e] eqn:E; cbn [_send_with_timeout] in H;
        rewrite (IH _ _ _ _ x H), Hrest; cbn [andb delivered]; [| reflexivity ..].
      rewrite sent_to_count_message, decide_True by reflexivity. reflexivity.
    + rewrite (Hother Hne).
      destruct (send (peers c)) as [| | e] eqn:E; cbn [_send_with_timeout] in H;
        rewrite (IH _ _ _ _ x H); [| reflexivity ..].
      rewrite sent_to_count_message, decide_False by exact Hne. reflexivity.
Qed.

Lemma check_states_NoDup peers connections valid dropped :
  NoDup connections -> check_states peers connections = (valid, dropped) ->
  NoDup valid.
Proof.
  intros Hnd. revert valid dropped.
  induction Hnd as [| c rest Hc Hnd IH]; intros valid dropped H;
    cbn [check_states] in H.
  - inversion H. constructor.
  - destruct (check_states peers rest) as [v d] eqn:Hcs.
    specialize (IH v d eq_refl).
    assert (Hcv : c ∉ v).
    { intros Hin. destruct (check_states_spec _ _ _ _ Hcs c) as [Hv _].
      apply Hv in Hin as [Hin _]. exact (Hc Hin). }
    destruct (probe (peers c)) as [| [] | e]; inversion H; subst;
      try assumption; constructor; assumption.
Qed.

(** The counter of every connection after a [broadcast]. *)
Lemma broadcast_counts peers chan m x :
  sent_to (connection_metadata (broadcast peers chan m)) x
  = if in_channel m chan x && marked peers x then None
    else if in_channel m chan x && probe_ok (probe (peers x))
            && delivered (send (peers x))
         then S <$> sent_to (connection_metadata m) x
         else sent_to (connection_metadata m) x.
Proof.
  unfold broadcast, in_channel.
  destruct (channels m !! chan) as [members |] eqn:Hch; [| reflexivity].
  destruct (elements members) as [| c rest] eqn:Hel.
  { assert (Hx : bool_decide (x ∈ members) = false).
    { apply bool_decide_eq_false_2. intros Hx.
      apply elem_of_elements in Hx. rewrite Hel in Hx. inversion Hx. }
    rewrite Hx. reflexivity. }
  rewrite <- Hel.
  destruct (check_states peers (elements members)) as [valid dropped0] eqn:Hcs.
  destruct (process_results _ _ dropped0) as [md' dropped] eqn:Hpr.
  fold (disconnect_all dropped
          {| active_connections := active_connections m; channels := channels m;
             connection_metadata := md' |}).
  unfold sent_to at 1. rewrite metadata_disconnect_all. cbn [connection_metadata].
  pose proof (check_states_NoDup _ _ _ _ (NoDup_elements members) Hcs) as Hnd.
  pose proof (process_results_counts peers valid Hnd _ _ _ _ x Hpr) as Hcount.
  destruct (process_results_spec _ _ _ _ _ _ Hpr x) as [Hd _].
  destruct (check_states_spec _ _ _ _ Hcs x) as [Hv Hd0].
  rewrite elem_of_elements in Hv, Hd0.
  assert (Hdrop : x ∈ dropped
                  <-> bool_decide (x ∈ members) && marked peers x = true).
  { rewrite Hd, Hv, Hd0, andb_true_iff, bool_decide_eq_true. unfold marked.
    destruct (probe_ok (probe (peers x))); cbn; intuition congruence. }
  assert (Hvalid : bool_decide (x ∈ valid)
                   = bool_decide (x ∈ members) && probe_ok (probe (peers x))).
  { destruct (bool_decide (x ∈ members) && probe_ok (probe (peers x))) eqn:Hb.
    - apply bool_decide_eq_true, Hv. apply andb_true_iff in Hb as [Hb1 Hb2].
      apply bool_decide_eq_true in Hb1. auto.
    - apply bool_decide_eq_false. intros Hin. apply Hv in Hin as [Hin Hp].
      rewrite (bool_decide_eq_true_2 _ Hin), Hp in Hb. discriminate. }
  destruct (decide (x ∈ dropped)) as [Hin | Hout].
  - apply Hdrop in Hin. rewrite Hin. reflexivity.
  - destruct (bool_decide (x ∈ members) && marked peers x) eqn:Hb;
      [exfalso; apply Hout, Hdrop; reflexivity |].
    fold (sent_to md' x). rewrite Hcount, Hvalid. reflexivity.
Qed.

Lemma broadcast_skips_non_member peers chan m x :
  ~ member m chan x ->
  sent_to (connection_metadata (broadcast peers chan m)) x
  = sent_to (connection_metadata m) x
  /\ forall ch, member (broadcast peers chan m) ch x <-> member m ch x.
Proof.
  intros Hn.
  assert (Hin : in_channel m chan x = false).
  { destruct (in_channel m chan x) eqn:E; [| reflexivity].
    exfalso. apply Hn, in_channel_member, E. }
  split.
  - rewrite broadcast_counts, Hin. reflexivity.
  - intros ch. rewrite member_broadcast. tauto.
Qed.

(** X12: On a [broadcast] to a channel, a healthy member of the channel is
    counted exactly one more message and stays where it was; a connection
    that is not in the channel is counted none and stays where it was,
    whatever its state. *)
Theorem broadcast_delivers_once_to_members_only peers chan m x :
  (member m chan x -> healthy peers x ->
   sent_to (connection_metadata (broadcast peers chan m)) x
   = S <$> sent_to (connection_metadata m) x
   /\ forall ch, member (broadcast peers chan m) ch x <-> member m ch x)
  /\ (~ member m chan x ->
      sent_to (connection_metadata (broadcast peers chan m)) x
      = sent_to (connection_metadata m) x
      /\ forall ch, member (broadcast peers chan m) ch x <-> member m ch x).
Proof.
  split.
  - intros Hm [Hp Hs].
    assert (Hmark : marked peers x = false)
      by (unfold marked; rewrite Hp, Hs; reflexivity).
    apply in_channel_member in Hm as Hin.
    split.
    + rewrite broadcast_counts, Hin, Hmark, Hp, Hs. reflexivity.
    + intros ch. rewrite member_broadcast. split; [tauto |].
      intros H. split; [exact H |]. intros [_ H']. congruence.
  - apply broadcast_skips_non_member.
Qed.

(** X13: A subscriber connected to [all] only (the default endpoint), whatever
    its state, is sent nothing by the typed emitters: none of them
    publishes to [all].  Its counter and its channels are what they
    were after an order-executed, a position, a trade-signal, a balance, a
    position-closed and a session update. *)
Theorem typed_emitters_skip_all_only_subscribers p1 p2 p3 m x :
  (forall ch, member m ch x -> ch = "all") ->
  let untouched m' :=
    sent_to (connection_metadata m') x = sent_to (connection_metadata m) x
    /\ forall ch, member m' ch x <-> member m ch x in
  untouched (broadcast_order_executed p1 p2 p3 m)
  /\ untouched (broadcast_position_update p1 p2 m)
  /\ untouched (broadcast_trade_signal p1 p2 m)
  /\ untouched (broadcast_balance_update p1 m)
  /\ untouched (broadcast_position_closed p1 p2 m)
  /\ untouched (broadcast_session_update p1 p2 m).
Proof.
  intros Honly. cbv zeta.
  set (untouched := fun m' : ConnectionManager =>
         sent_to (connection_metadata m') x = sent_to (connection_metadata m) x
         /\ forall ch, member m' ch x <-> member m ch x).
  assert (Hstep : forall peers chan m0,
            chan <> "all" -> untouched m0 -> untouched (broadcast peers chan m0)).
  { intros peers chan m0 Hne [Hcount Hsame].
    assert (Hout : ~ member m0 chan x).
    { intros H. apply Hne, Honly, Hsame, H. }
    destruct (broadcast_skips_non_member peers chan m0 x Hout) as [Hc Hm].
    split; [congruence |]. intros ch. rewrite Hm. apply Hsame. }
  assert (H0 : untouched m) by (split; [reflexivity | tauto]).
  unfold broadcast_order_executed, broadcast_position_update,
    broadcast_trade_signal, broadcast_balance_update, broadcast_position_closed,
    broadcast_session_update.
  repeat apply conj; repeat (apply Hstep; [discriminate |]); exact H0.
Qed.


(** *** Connecting *)

Lemma init_has_no_member chan x : ~ member init chan x.
Proof.
  intros (members & Hs & Hx). unfold init in Hs. cbn [channels] in Hs.
  repeat (rewrite lookup_insert in Hs;
          destruct (decide _) in Hs; [inversion Hs; subst; set_solver |]).
  rewrite lookup_empty in Hs. discriminate.
Qed.

(** The channels after the three assignments of [connect], before the
    welcome message is sent. *)
Lemma member_connect welcomed now w chan m ch x :
  is_Some (channels m !! "all") ->
  member (fst (connect (Ok tt) welcomed now w chan m)) ch x
  <-> (member m ch x \/ (x = w /\ (ch = chan \/ ch = "all")))
      /\ (raises welcomed = true -> x <> w).
Proof.
  intros Hall. unfold connect.
  set (created := match channels m !! chan with
                  | None => <[chan := ∅]> (channels m)
                  | Some _ => channels m
                  end).
  assert (Hcreated : forall c y, mem created c y <-> mem (channels m) c y).
  { intros c y. subst created.
    destruct (channels m !! chan) eqn:E; [reflexivity |].
    apply mem_insert_empty, E. }
  assert (Hsome : is_Some (created !! chan)).
  { subst created. destruct (channels m !! chan) eqn:E; [rewrite E; eauto |].
    rewrite lookup_insert_eq. eauto. }
  assert (Hall' : is_Some (created !! "all")).
  { subst created. destruct (channels m !! chan) eqn:E; [exact Hall |].
    destruct (decide (chan = "all")) as [-> | Hne];
      [rewrite lookup_insert_eq; eauto |].
    rewrite lookup_insert_ne by congruence. exact Hall. }
  set (joined := alter (fun members => members ∪ {[w]}) chan created).
  assert (Hjall : is_Some (joined !! "all")).
  { subst joined. destruct (decide (chan = "all")) as [-> | Hne].
    - rewrite lookup_alter_eq. destruct Hall' as [s ->]. cbn. eauto.
    - rewrite lookup_alter_ne by congruence. exact Hall'. }
  destruct (joined !! "all") as [everyone |] eqn:Hj; [| destruct Hjall; discriminate].
  cbn [fst].
  assert (Hbefore : forall c y,
            mem (<["all" := everyone ∪ {[w]}]> joined) c y
            <-> member m c y \/ (y = w /\ (c = chan \/ c = "all"))).
  { intros c y. rewrite (mem_insert_add _ _ _ _ _ _ Hj). subst joined.
    rewrite mem_alter_add, Hcreated. unfold member, mem. intuition. }
  destruct welcomed as [[] | e]; cbn [send_personal_message raises].
  - unfold member at 1. cbn [channels].
    fold (mem (<["all" := everyone ∪ {[w]}]> joined) ch x).
    rewrite Hbefore. intuition discriminate.
  - rewrite member_disconnect. unfold member at 1. cbn [channels].
    fold (mem (<["all" := everyone ∪ {[w]}]> joined) ch x).
    rewrite Hbefore. intuition.
Qed.

Lemma metadata_connect welcomed now w chan m x :
  is_Some (channels m !! "all") ->
  connection_metadata (fst (connect (Ok tt) welcomed now w chan m)) !! x
  = if decide (x = w)
    then (if raises welcomed then None
          else Some {| channel := chan; connected_at := now; messages_sent := 1 |})
    else connection_metadata m !! x.
Proof.
  intros Hall. unfold connect.
  set (created := match channels m !! chan with
                  | None => <[chan := ∅]> (channels m)
                  | Some _ => channels m
                  end).
  assert (Hall' : is_Some (created !! "all")).
  { subst created. destruct (channels m !! chan) eqn:E; [exact Hall |].
    destruct (decide (chan = "all")) as [-> | Hne];
      [rewrite lookup_insert_eq; eauto |].
    rewrite lookup_insert_ne by congruence. exact Hall. }
  set (joined := alter (fun members => members ∪ {[w]}) chan created).
  assert (Hjall : is_Some (joined !! "all")).
  { subst joined. destruct (decide (chan = "all")) as [-> | Hne].
    - rewrite lookup_alter_eq. destruct Hall' as [s ->]. cbn. eauto.
    - rewrite lookup_alter_ne by congruence. exact Hall'. }
  destruct (joined !! "all") as [everyone |] eqn:Hj; [| destruct Hjall; discriminate].
  cbn [fst].
  destruct welcomed as [[] | e]; cbn [send_personal_message raises].
  - cbn [connection_metadata]. rewrite lookup_count_message.
    destruct (decide (x = w)) as [-> | Hne].
    + rewrite decide_True by reflexivity. rewrite lookup_insert_eq. reflexivity.
    + rewrite decide_False by congruence. apply lookup_insert_ne. congruence.
  - rewrite metadata_disconnect. cbn [connection_metadata].
    destruct (decide (x = w)) as [-> | Hne]; [reflexivity |].
    apply lookup_insert_ne. congruence.
Qed.

(** X14: A connection accepted on [/ws/{channel}] is subscribed to that channel,
    which is created when the bus does not have it, and to [all], and to
    nothing else; the other subscribers are where they were.  Its metadata
    names the channel and counts the welcome message.  When the welcome
    message cannot be sent the connection is dropped again from every
    channel and has no metadata. *)
Theorem connect_subscribes_to_channel_and_all welcomed now w chan m :
  is_Some (channels m !! "all") ->
  (forall ch x,
     member (fst (connect (Ok tt) welcomed now w chan m)) ch x
     <-> (member m ch x \/ (x = w /\ (ch = chan \/ ch = "all")))
         /\ (raises welcomed = true -> x <> w))
  /\ connection_metadata (fst (connect (Ok tt) welcomed now w chan m)) !! w
     = (if raises welcomed then None
        else Some {| channel := chan; connected_at := now; messages_sent := 1 |})
  /\ (forall x, x <> w ->
        connection_metadata (fst (connect (Ok tt) welcomed now w chan m)) !! x
        = connection_metadata m !! x).
Proof.
  intros Hall. split; [| split].
  - intros ch x. apply member_connect, Hall.
  - rewrite metadata_connect by exact Hall. rewrite decide_True by reflexivity.
    reflexivity.
  - intros x Hne. rewrite metadata_connect by exact Hall.
    rewrite decide_False by exact Hne. reflexivity.
Qed.

Lemma connect_subscribes_to_channel_and_all_witness :
  connection_metadata (fst (connect (Ok tt) (Ok tt) 5 9 "news" init)) !! 9%positive
  = Some {| channel := "news"; connected_at := 5; messages_sent := 1 |}
  /\ member (fst (connect (Ok tt) (Ok tt) 5 9 "news" init)) "news" 9%positive.
Proof.
  destruct (connect_subscribes_to_channel_and_all (Ok tt) 5 9%positive "news" init
              (proj1 well_formed_init)) as (Hmem & Hmeta & _).
  split; [exact Hmeta |].
  apply Hmem. split; [right; auto | discriminate].
Defined.

Lemma three_subscribers_all_only x ch :
  member three_subscribers ch x -> ch = "all".
Proof.
  unfold three_subscribers. intros H.
  assert (H0 : is_Some (channels init !! "all")) by apply well_formed_init.
  pose proof (well_formed_connect (Ok tt) (Ok tt) 0 1%positive "all" init
                well_formed_init) as [H1 _].
  pose proof (well_formed_connect (Ok tt) (Ok tt) 0 2%positive "all" _
                (well_formed_connect (Ok tt) (Ok tt) 0 1%positive "all" init
                   well_formed_init)) as [H2 _].
  apply (member_connect _ _ _ _ _ _ _ H2) in H as [[H | (_ & [-> | ->])] _];
    [| reflexivity ..].
  apply (member_connect _ _ _ _ _ _ _ H1) in H as [[H | (_ & [-> | ->])] _];
    [| reflexivity ..].
  apply (member_connect _ _ _ _ _ _ _ H0) in H as [[H | (_ & [-> | ->])] _];
    [| reflexivity ..].
  exfalso. eapply init_has_no_member, H.
Qed.

Lemma typed_emitters_skip_all_only_subscribers_witness :
  sent_to (connection_metadata
             (broadcast_order_executed third_is_slow third_is_slow third_is_slow
                three_subscribers)) 1%positive
  = sent_to (connection_metadata three_subscribers) 1%positive.
Proof.
  exact (proj1 (proj1 (typed_emitters_skip_all_only_subscribers
                         third_is_slow third_is_slow third_is_slow
                         three_subscribers 1%positive
                         (fun ch => three_subscribers_all_only 1%positive ch)))).
Defined.

End DeliveryFacts.

(** ** The connection list, the metadata and the statistics *)

Module ConsistencyFacts.

Import EventBus BusFacts BusEmitters DeliveryFacts.

(** The three structures of the manager agree: the connection list has no
    repetition, it lists exactly the connections that have metadata, and
    every member of a channel is in it; the channel [all] exists. *)
Definition consistent (m : ConnectionManager) : Prop :=
  is_Some (channels m !! "all")
  /\ NoDup (active_connections m)
  /\ (forall x, x ∈ active_connections m <-> is_Some (connection_metadata m !! x))
  /\ (forall chan x, member m chan x -> x ∈ active_connections m).

(** An operation a live endpoint can issue: a connection is accepted once
    per socket, and a subscription is asked on a socket still connected. *)
Definition live (op : operation) (m : ConnectionManager) : Prop :=
  match op with
  | OpConnect _ _ _ websocket _ => websocket ∉ active_connections m
  | OpMessage _ (Subscribe _) websocket => websocket ∈ active_connections m
  | _ => True
  end.

Lemma elem_of_remove_first w l x :
  NoDup l -> x ∈ remove_first w l <-> x ∈ l /\ x <> w.
Proof.
  induction 1 as [| y l Hy Hnd IH]; cbn [remove_first].
  - rewrite elem_of_nil. tauto.
  - destruct (decide (w = y)) as [-> | Hne].
    + rewrite elem_of_cons. split.
      * intros Hin. split; [auto |]. intros ->. contradiction.
      * intros [[-> | Hin] Hne]; [congruence | exact Hin].
    + rewrite !elem_of_cons, IH. split.
      * intros [-> | [Hin Hx]]; split; auto.
      * intros [[-> | Hin] Hx]; auto.
Qed.

Lemma NoDup_remove_first w l : NoDup l -> NoDup (remove_first w l).
Proof.
  induction 1 as [| y l Hy Hnd IH]; cbn [remove_first]; [constructor |].
  destruct (decide (w = y)); [exact Hnd |].
  constructor; [| exact IH].
  intros Hin. apply (elem_of_remove_first w l y Hnd) in Hin as [Hin _]. contradiction.
Qed.

Lemma consistent_disconnect w m : consistent m -> consistent (disconnect w m).
Proof.
  intros (Hall & Hnd & Hmeta & Hmem). split; [| split; [| split]].
  - unfold disconnect. cbn [channels]. rewrite lookup_fmap.
    destruct Hall as [s ->]. cbn. eauto.
  - apply NoDup_remove_first, Hnd.
  - intros x. rewrite metadata_disconnect. unfold disconnect.
    cbn [active_connections].
    rewrite (elem_of_remove_first w _ x Hnd), Hmeta.
    destruct (decide (x = w)) as [-> | Hne].
    + split; [tauto | intros [? H]; discriminate].
    + tauto.
  - intros chan x Hm. apply member_disconnect in Hm as [Hm Hne].
    cbn [disconnect active_connections].
    apply (elem_of_remove_first w _ x Hnd).
    split; [eapply Hmem, Hm | exact Hne].
Qed.

Lemma consistent_disconnect_all l m : consistent m -> consistent (disconnect_all l m).
Proof.
  revert m. induction l as [| w l IH]; intros m H; [exact H |].
  cbn [disconnect_all foldl]. apply IH, consistent_disconnect, H.
Qed.

(** Replacing the metadata by one with the same keys. *)
Lemma consistent_metadata m md :
  (forall x, is_Some (md !! x) <-> is_Some (connection_metadata m !! x)) ->
  consistent m ->
  consistent {| active_connections := active_connections m;
                channels := channels m; connection_metadata := md |}.
Proof.
  intros Hkeys (Hall & Hnd & Hmeta & Hmem). repeat split; try assumption.
  - intros Hx. cbn. apply Hkeys, Hmeta, Hx.
  - cbn. intros Hx. apply Hmeta, Hkeys, Hx.
Qed.

Lemma count_message_keys w md x :
  is_Some (count_message w md !! x) <-> is_Some (md !! x).
Proof.
  rewrite lookup_count_message. destruct (decide (w = x)); [| reflexivity].
  apply fmap_is_Some.
Qed.

Lemma consistent_send r w m :
  consistent m -> consistent (send_personal_message r w m).
Proof.
  intros H. destruct r; cbn [send_personal_message].
  - apply (consistent_metadata m); [apply count_message_keys | exact H].
  - apply consistent_disconnect, H.
Qed.

Lemma sent_to_keys (md md' : gmap WebSocket metadata) x :
  sent_to md' x = sent_to md x \/ sent_to md' x = S <$> sent_to md x ->
  is_Some (md' !! x) <-> is_Some (md !! x).
Proof.
  unfold sent_to. intros [H | H].
  - rewrite <- (fmap_is_Some messages_sent (md' !! x)), H. apply fmap_is_Some.
  - rewrite <- (fmap_is_Some messages_sent (md' !! x)), H, !fmap_is_Some.
    reflexivity.
Qed.

Lemma process_results_keys pairs :
  forall md dropped md' dropped' x,
    process_results pairs md dropped = (md', dropped') ->
    is_Some (md' !! x) <-> is_Some (md !! x).
Proof.
  induction pairs as [| [c [[] | e]] rest IH]; intros md dropped md' dropped' x H;
    cbn [process_results] in H.
  - inversion H. reflexivity.
  - rewrite (IH _ _ _ _ x H). apply count_message_keys.
  - apply (IH _ _ _ _ x H).
  - apply (IH _ _ _ _ x H).
Qed.

Lemma consistent_broadcast peers chan m :
  consistent m -> consistent (broadcast peers chan m).
Proof.
  intros H. unfold broadcast.
  destruct (channels m !! chan) as [members |]; [| exact H].
  destruct (elements members) as [| c rest] eqn:Hel; [exact H |].
  rewrite <- Hel.
  destruct (check_states peers (elements members)) as [valid dropped0].
  destruct (process_results _ _ dropped0) as [md' dropped] eqn:Hpr.
  apply (consistent_disconnect_all dropped).
  apply (consistent_metadata m); [| exact H].
  intros x. apply (process_results_keys _ _ _ _ _ x Hpr).
Qed.

Lemma connect_unfold welcomed now w chan m :
  is_Some (channels m !! "all") ->
  exists chs,
    fst (connect (Ok tt) welcomed now w chan m)
    = send_personal_message welcomed w
        {| active_connections := active_connections m ++ [w];
           channels := chs;
           connection_metadata :=
             <[w := {| channel := chan; connected_at := now; messages_sent := 0 |}]>
               (connection_metadata m) |}
    /\ is_Some (chs !! "all")
    /\ forall ch x, mem chs ch x
                    <-> member m ch x \/ (x = w /\ (ch = chan \/ ch = "all")).
Proof.
  intros Hall. unfold connect.
  set (created := match channels m !! chan with
                  | None => <[chan := ∅]> (channels m)
                  | Some _ => channels m
                  end).
  assert (Hcreated : forall c y, mem created c y <-> mem (channels m) c y).
  { intros c y. subst created.
    destruct (channels m !! chan) eqn:E; [reflexivity |].
    apply mem_insert_empty, E. }
  assert (Hsome : is_Some (created !! chan)).
  { subst created. destruct (channels m !! chan) eqn:E; [rewrite E; eauto |].
    rewrite lookup_insert_eq. eauto. }
  assert (Hall' : is_Some (created !! "all")).
  { subst created. destruct (channels m !! chan) eqn:E; [exact Hall |].
    destruct (decide (chan = "all")) as [-> | Hne];
      [rewrite lookup_insert_eq; eauto |].
    rewrite lookup_insert_ne by congruence. exact Hall. }
  set (joined := alter (fun members => members ∪ {[w]}) chan created).
  assert (Hjall : is_Some (joined !! "all")).
  { subst joined. destruct (decide (chan = "all")) as [-> | Hne].
    - rewrite lookup_alter_eq. destruct Hall' as [s ->]. cbn. eauto.
    - rewrite lookup_alter_ne by congruence. exact Hall'. }
  destruct (joined !! "all") as [everyone |] eqn:Hj; [| destruct Hjall; discriminate].
  cbn [fst]. exists (<["all" := everyone ∪ {[w]}]> joined).
  split; [reflexivity |]. split; [rewrite lookup_insert_eq; eauto |].
  intros c y. rewrite (mem_insert_add _ _ _ _ _ _ Hj). subst joined.
  rewrite mem_alter_add, Hcreated. unfold member, mem. intuition.
Qed.

Lemma consistent_connect accepted welcomed now w chan m :
  w ∉ active_connections m ->
  consistent m -> consistent (fst (connect accepted welcomed now w chan m)).
Proof.
  intros Hfresh Hc. destruct accepted as [[] | e]; [| exact Hc].
  destruct Hc as (Hall & Hnd & Hmeta & Hmem).
  destruct (connect_unfold welcomed now w chan m Hall) as (chs & -> & Hall' & Hchs).
  apply consistent_send. split; [| split; [| split]].
  - exact Hall'.
  - cbn [active_connections]. apply NoDup_app. split; [exact Hnd |]. split.
    + intros x Hx Hin. apply elem_of_cons in Hin as [-> | Hin];
        [contradiction | inversion Hin].
    + repeat constructor. intros Hin. inversion Hin.
  - intros x. cbn [active_connections connection_metadata].
    rewrite elem_of_app, elem_of_cons, elem_of_nil, Hmeta.
    destruct (decide (x = w)) as [-> | Hne].
    + rewrite lookup_insert_eq. split; eauto.
    + rewrite lookup_insert_ne by congruence. tauto.
  - intros ch x Hm. cbn [active_connections].
    apply elem_of_app.
    change (mem chs ch x) in Hm. apply Hchs in Hm as [Hm | [-> _]].
    + left. eapply Hmem, Hm.
    + right. apply list_elem_of_here.
Qed.

Lemma consistent_message replied msg w m :
  live (OpMessage replied msg w) m ->
  consistent m -> consistent (handle_message replied msg w m).
Proof.
  intros Hlive Hc.
  destruct msg as [ts | new | old | | mt |]; cbn [handle_message];
    try (apply consistent_send, Hc).
  - destruct (known_channel new m); [| exact Hc].
    apply consistent_send. destruct Hc as (Hall & Hnd & Hmeta & Hmem).
    split; [| split; [| split]]; cbn [channels active_connections connection_metadata];
      try assumption.
    + destruct (decide (default "" new = "all")) as [-> | Hne].
      * rewrite lookup_alter_eq. destruct Hall as [s ->]. cbn. eauto.
      * rewrite lookup_alter_ne by congruence. exact Hall.
    + intros ch x Hm.
      change (mem (alter (fun members => members ∪ {[w]}) (default "" new)
                     (channels m)) ch x) in Hm.
      apply mem_alter_add in Hm as [Hm | (_ & -> & _)];
        [eapply Hmem, Hm | exact Hlive].
  - destruct (known_channel old m); [| exact Hc].
    apply consistent_send. destruct Hc as (Hall & Hnd & Hmeta & Hmem).
    split; [| split; [| split]]; cbn [channels active_connections connection_metadata];
      try assumption.
    + destruct (decide (default "" old = "all")) as [-> | Hne].
      * rewrite lookup_alter_eq. destruct Hall as [s ->]. cbn. eauto.
      * rewrite lookup_alter_ne by congruence. exact Hall.
    + intros ch x Hm.
      change (mem (alter (fun members => members ∖ {[w]}) (default "" old)
                     (channels m)) ch x) in Hm.
      apply mem_alter_remove in Hm as [Hm _]. eapply Hmem, Hm.
Qed.

(** X15: The connection list, the metadata and the channels stay consistent
    under every operation of the bus, provided a socket is connected once
    and asks its subscriptions while connected: no connection is listed
    twice, the listed connections are exactly those with metadata, and
    every member of a channel is a listed connection. *)
Theorem bus_stays_consistent op m :
  consistent m -> live op m -> consistent (apply op m).
Proof.
  intros Hc Hlive.
  destruct op as [accepted welcomed now w chan | replied msg w | w | peers chan];
    cbn [apply].
  - apply consistent_connect; assumption.
  - apply consistent_message; assumption.
  - apply consistent_disconnect, Hc.
  - apply consistent_broadcast, Hc.
Qed.

Lemma consistent_init : consistent init.
Proof.
  split; [apply well_formed_init |]. split; [constructor |]. split.
  - intros x. cbn. rewrite lookup_empty. split; [intros H; inversion H |].
    intros [? H]; discriminate.
  - intros chan x Hm. exfalso. eapply init_has_no_member, Hm.
Qed.

Lemma bus_stays_consistent_witness :
  consistent (apply (OpConnect (Ok tt) (Ok tt) 0 1 "trading") init).
Proof.
  apply (bus_stays_consistent (OpConnect (Ok tt) (Ok tt) 0 1 "trading") init).
  - exact consistent_init.
  - cbn. intros H. inversion H.
Defined.

(** X16: On a consistent bus the figures of [get_statistics] agree:
    [total_connections] is the number of entries of ["connections"], and
    no channel counts more subscribers than that. *)
Theorem statistics_agree m :
  consistent m ->
  total_connections (get_statistics m) = length (connections (get_statistics m))
  /\ forall chan n, channel_stats (get_statistics m) !! chan = Some n ->
                    (n <= total_connections (get_statistics m))%nat.
Proof.
  intros (Hall & Hnd & Hmeta & Hmem). unfold get_statistics.
  cbn [total_connections connections channel_stats]. split.
  - rewrite length_fmap, length_map_to_list.
    rewrite <- (size_dom (D := gset positive)).
    assert (Hdom : dom (connection_metadata m)
                   = (list_to_set (active_connections m) : gset positive)).
    { apply set_eq. intros x.
      rewrite elem_of_dom, elem_of_list_to_set. symmetry. apply Hmeta. }
    rewrite Hdom. symmetry. apply size_list_to_set, Hnd.
  - intros chan n Hn. rewrite lookup_fmap in Hn.
    destruct (channels m !! chan) as [members |] eqn:Hch; [| discriminate].
    inversion Hn; subst n.
    apply submseteq_length, NoDup_submseteq; [apply NoDup_elements |].
    intros x Hx. apply elem_of_elements in Hx. apply (Hmem chan x).
    exists members. auto.
Qed.

Lemma consistent_three_subscribers : consistent three_subscribers.
Proof.
  unfold three_subscribers.
  repeat (apply consistent_connect;
          [apply (bool_decide_unpack _); vm_compute; exact I |]).
  exact consistent_init.
Qed.

Lemma statistics_agree_witness :
  total_connections (get_statistics three_subscribers)
  = length (connections (get_statistics three_subscribers))
  /\ forall chan n,
       channel_stats (get_statistics three_subscribers) !! chan = Some n ->
       (n <= total_connections (get_statistics three_subscribers))%nat.
Proof.
  exact (statistics_agree three_subscribers consistent_three_subscribers).
Defined.

End ConsistencyFacts.

(** ** The retries of [login_user] *)

Module LoginFacts.

Import Vault SessionManager.

(** [except MatchTradeAPIError] catches the result. *)
Definition api_error {A} (r : res A) : bool :=
  match r with
  | Raise (MatchTradeAPIError _) => true
  | _ => false
  end.

(** What [login_user] returns when attempt [k] is its last one. *)
Definition settled (uid : Z) (k : nat) (r : res login_result) : login_result :=
  match r with
  | Ok d => d
  | Raise (MatchTradeAPIError msg) => failure (Some uid) msg (Some k)
  | Raise e => failure (Some uid) (str_exn e) None
  end.

Lemma login_user_from_settles lib key env uid k :
  forall remaining retry,
    (k <= remaining)%nat ->
    (forall j, (j < k)%nat ->
       api_error (login_attempt lib key env uid (retry + j)) = true) ->
    k = remaining
    \/ api_error (login_attempt lib key env uid (retry + k)) = false ->
    login_user_from lib key env remaining uid retry
    = settled uid (retry + k) (login_attempt lib key env uid (retry + k)).
Proof.
  induction k as [| k IH]; intros remaining retry Hle Hbefore Hlast.
  - rewrite Nat.add_0_r in *.
    destruct remaining as [| remaining']; cbn [login_user_from];
      destruct (login_attempt lib key env uid retry) as [d | e];
      try reflexivity; destruct e; try reflexivity.
    destruct Hlast as [Heq | Hno]; [discriminate | discriminate Hno].
  - destruct remaining as [| remaining']; [lia |].
    pose proof (Hbefore 0%nat ltac:(lia)) as H0. rewrite Nat.add_0_r in H0.
    cbn [login_user_from].
    destruct (login_attempt lib key env uid retry) as [d | e]; [discriminate |].
    destruct e; try discriminate.
    replace (retry + S k)%nat with (S retry + k)%nat by lia.
    apply IH; [lia | |].
    + intros j Hj. replace (S retry + j)%nat with (retry + S j)%nat by lia.
      apply Hbefore. lia.
    + destruct Hlast as [Heq | Hno]; [left; lia |].
      right. replace (S retry + k)%nat with (retry + S k)%nat by lia. exact Hno.
Qed.

(** X17: [login_user] tries again after a [MatchTradeAPIError] only, and at most
    [max_retry_attempts] times: when the attempts before the [k]-th all
    raised it, and the [k]-th either does not or is attempt number
    [max_retry_attempts], the result is that of the [k]-th attempt: its
    dictionary, or a failure carrying [retry_count] for a
    [MatchTradeAPIError] and none for any other exception. *)
Theorem login_settles_at_last_attempt lib key max_retry_attempts env uid k :
  (k <= max_retry_attempts)%nat ->
  (forall j, (j < k)%nat -> api_error (login_attempt lib key env uid j) = true) ->
  k = max_retry_attempts \/ api_error (login_attempt lib key env uid k) = false ->
  login_user lib key max_retry_attempts env uid 0
  = settled uid k (login_attempt lib key env uid k).
Proof.
  intros Hle Hbefore Hlast. unfold login_user.
  rewrite Nat.sub_0_r.
  exact (login_user_from_settles lib key env uid k max_retry_attempts 0%nat
           Hle Hbefore Hlast).
Qed.

(** A stored password kept in the clear, and a broker that rejects the
    first [n] logins and accepts the later ones. *)
Definition plain_lib : crypto_lib :=
  {| b64decode := fun _ => Raise BinasciiError;
     decode := fun raw => Ok (string_of_list_byte raw);
     fernet_decrypt := fun _ _ => Raise InvalidToken |}.

Definition the_user : User :=
  {| id := 7; email := "a@b.c"; encrypted_password := "secret";
     broker_id := "0"; is_active := true |}.

Definition rejecting_first (n : nat) : login_env :=
  {| find_user := fun _ => Ok (Some the_user);
     api_login := fun retry _ _ _ =>
       if (retry <? n)%nat then Raise (MatchTradeAPIError "Unauthorized")
       else Ok {| token := Some "t"; trading_api_token := Some "tt";
                  tradingApiToken := None; trading_account_id := None;
                  tradingAccountId := None |};
     store_session := fun _ => Ok 1 |}.

Lemma login_settles_at_last_attempt_witness :
  login_user plain_lib None 3 (rejecting_first 2) 7 0
  = {| success := true; user_id := Some 7; error := None;
       retry_count := None; session_id := Some 1 |}
  /\ login_user plain_lib None 3 (rejecting_first 9) 7 0
     = failure (Some 7) "Unauthorized" (Some 3%nat).
Proof.
  split.
  - apply (login_settles_at_last_attempt plain_lib None 3
             (rejecting_first 2) 7 2).
    + lia.
    + intros [| [| j]] Hj; [reflexivity | reflexivity | lia].
    + right. reflexivity.
  - apply (login_settles_at_last_attempt plain_lib None 3
             (rejecting_first 9) 7 3).
    + lia.
    + intros [| [| [| j]]] Hj; [reflexivity | reflexivity | reflexivity | lia].
    + left. reflexivity.
Defined.

End LoginFacts.

(** ** Encryption and decryption of stored secrets *)

Module RoundTripFacts.

Import Vault VaultEncrypt.

(** X18: What is written by [encrypt_sensitive_data] is read back by
    [decrypt_sensitive_data] under the same key setting (no key, a valid
    key, or a key Fernet rejects), provided the libraries are inverse to
    each other on the data and Fernet does not take the plain bytes for a
    token when it could not encrypt them. *)
Theorem decrypt_encrypt_round_trip (enc : encrypt_lib) (dec : crypto_lib)
    (key : option string) (data : string) (raw : list Byte.byte) :
  encode enc data = Ok raw ->
  decode dec raw = Ok data ->
  (forall bytes, b64decode dec (b64encode enc bytes) = Ok bytes) ->
  (forall token, fernet_encrypt enc (default "" key) raw = Ok token ->
                 fernet_decrypt dec (default "" key) token = Ok raw) ->
  (raises (fernet_encrypt enc (default "" key) raw) = true ->
   raises (fernet_decrypt dec (default "" key) raw) = true) ->
  exists stored,
    encrypt_sensitive_data enc key data = Ok stored
    /\ decrypt_sensitive_data dec key stored = Ok data.
Proof.
  intros Henc Hdec H64 Hfernet Hauth.
  assert (Hplain : base64_text dec (b64encode enc raw) = Ok data).
  { unfold base64_text. rewrite H64. cbn. exact Hdec. }
  unfold encrypt_sensitive_data, decrypt_sensitive_data.
  destruct (negb (truthy_str key)).
  - exists (b64encode enc raw). unfold base64_of. rewrite Henc. cbn.
    split; [reflexivity |]. unfold base64_fallback. rewrite Hplain. reflexivity.
  - unfold fernet_of, base64_of. rewrite Henc. cbn.
    destruct (fernet_encrypt enc (default "" key) raw) as [token | e] eqn:E; cbn.
    + exists (b64encode enc token). split; [reflexivity |].
      unfold fernet_text. rewrite H64. cbn. rewrite (Hfernet token eq_refl). cbn.
      rewrite Hdec. reflexivity.
    + exists (b64encode enc raw). split; [reflexivity |].
      unfold fernet_text. rewrite H64. cbn.
      specialize (Hauth eq_refl).
      destruct (fernet_decrypt dec (default "" key) raw); [discriminate |].
      cbn. unfold base64_fallback. rewrite Hplain. reflexivity.
Qed.

(** Libraries for the examples: base64 is the identity on byte strings,
    and a token is the plain bytes after a zero byte; the key ["bad"] is
    rejected by the constructor. *)
Definition toy_enc : encrypt_lib :=
  {| encode := fun s => Ok (list_byte_of_string s);
     b64encode := string_of_list_byte;
     fernet_encrypt := fun key raw =>
       if String.eqb key "bad" then Raise InvalidToken else Ok (x00 :: raw) |}.

Definition toy_dec : crypto_lib :=
  {| b64decode := fun s => Ok (list_byte_of_string s);
     decode := fun raw => Ok (string_of_list_byte raw);
     fernet_decrypt := fun key token =>
       if String.eqb key "bad" then Raise InvalidToken
       else match token with
            | x00 :: raw => Ok raw
            | _ => Raise InvalidToken
            end |}.

Lemma decrypt_encrypt_round_trip_witness :
  exists stored,
    encrypt_sensitive_data toy_enc (Some "k") "pw" = Ok stored
    /\ decrypt_sensitive_data toy_dec (Some "k") stored = Ok "pw".
Proof.
  apply (decrypt_encrypt_round_trip toy_enc toy_dec (Some "k") "pw"
           (list_byte_of_string "pw")).
  - reflexivity.
  - reflexivity.
  - intros bytes.
    change (Ok (list_byte_of_string (string_of_list_byte bytes)) = Ok bytes).
    rewrite list_byte_of_string_of_list_byte. reflexivity.
  - intros token H. cbn in H. inversion H. reflexivity.
  - cbn. discriminate.
Defined.

End RoundTripFacts.

(** ** The session table under login, logout and refresh *)

Module PoolFacts.

Import SessionManager SessionPool.

(** Nothing is pending. *)
Definition clean (p : pool) : Prop := view p = stored p.

(** Primary keys are distinct. *)
Definition keyed (rows : list UserSession) : Prop := NoDup (us_id <$> rows).

(** At most one active session per user. *)
Definition single (rows : list UserSession) : Prop :=
  forall uid, (length (active_of uid rows) <= 1)%nat.

Lemma row_by_id rows x y :
  keyed rows -> x ∈ rows -> y ∈ rows -> us_id x = us_id y -> x = y.
Proof.
  unfold keyed. induction rows as [| r rows IH]; intros Hnd Hx Hy Hid.
  - inversion Hx.
  - rewrite fmap_cons in Hnd. apply NoDup_cons in Hnd as [Hr Hnd].
    apply elem_of_cons in Hx as [-> | Hx]; apply elem_of_cons in Hy as [-> | Hy].
    + reflexivity.
    + exfalso. apply Hr. rewrite Hid. apply list_elem_of_fmap. eauto.
    + exfalso. apply Hr. rewrite <- Hid. apply list_elem_of_fmap. eauto.
    + apply IH; assumption.
Qed.

Lemma filter_map_same {A} (P : A -> Prop) `{forall x, Decision (P x)}
    (f : A -> A) (l : list A) :
  (forall x, x ∈ l -> P (f x) <-> P x) ->
  filter P (map f l) = map f (filter P l).
Proof.
  induction l as [| a l IH]; intros Hf; [reflexivity |].
  cbn [map]. rewrite !filter_cons.
  pose proof (Hf a (list_elem_of_here _ _)) as Ha.
  rewrite IH by (intros x Hx; apply Hf, list_elem_of_further, Hx).
  destruct (decide (P (f a))), (decide (P a)); tauto || reflexivity.
Qed.

Lemma filter_nothing {A} (P : A -> Prop) `{forall x, Decision (P x)} (l : list A) :
  (forall x, x ∈ l -> ~ P x) -> filter P l = [].
Proof.
  induction l as [| a l IH]; intros Hall; [reflexivity |].
  rewrite filter_cons_False by (apply Hall, list_elem_of_here).
  apply IH. intros x Hx. apply Hall, list_elem_of_further, Hx.
Qed.

Lemma map_fixed {A} (f : A -> A) (l : list A) :
  (forall x, x ∈ l -> f x = x) -> map f l = l.
Proof.
  induction l as [| a l IH]; intros Hf; [reflexivity |].
  cbn [map]. rewrite Hf by apply list_elem_of_here.
  rewrite IH by (intros x Hx; apply Hf, list_elem_of_further, Hx). reflexivity.
Qed.

Lemma elem_of_active uid rows s :
  s ∈ active_of uid rows
  <-> (us_user_id s = uid /\ us_is_active s = true) /\ s ∈ rows.
Proof.
  exact (list_elem_of_filter
           (fun s => us_user_id s = uid /\ us_is_active s = true) rows s).
Qed.

(** Rewriting the one row [s] into [s'], of the same key and user. *)
Section Rewrite.

Variables (rows : list UserSession) (s s' : UserSession).
Hypothesis Hkeyed : keyed rows.
Hypothesis Hin : s ∈ rows.
Hypothesis Hid : us_id s' = us_id s.
Hypothesis Huser : us_user_id s' = us_user_id s.

Let f := fun x => if us_id x =? us_id s' then s' else x.

Lemma rewrite_hit x : x ∈ rows -> us_id x = us_id s -> x = s /\ f x = s'.
Proof.
  intros Hx Hsame. split; [apply (row_by_id rows); assumption |].
  unfold f. rewrite Hid, Hsame, Z.eqb_refl. reflexivity.
Qed.

Lemma rewrite_miss x : x ∈ rows -> us_id x <> us_id s -> f x = x.
Proof.
  intros Hx Hne. unfold f. rewrite Hid.
  destruct (Z.eqb_spec (us_id x) (us_id s)); [contradiction | reflexivity].
Qed.

Lemma rewrite_keyed : keyed (map f rows).
Proof.
  unfold keyed in *.
  replace (us_id <$> map f rows) with (us_id <$> rows); [exact Hkeyed |].
  clear Hkeyed Hin. induction rows as [| r l IH]; [reflexivity |].
  cbn. f_equal; [| exact IH].
  unfold f. destruct (Z.eqb_spec (us_id r) (us_id s')); congruence.
Qed.

Lemma rewrite_length : length (map f rows) = length rows.
Proof. apply length_map. Qed.

Lemma rewrite_others uid :
  uid <> us_user_id s ->
  active_of uid (map f rows) = active_of uid rows.
Proof.
  intros Hne. unfold active_of. rewrite filter_map_same.
  - apply map_fixed. intros x Hx.
    apply (elem_of_active uid rows x) in Hx as [[Hu _] Hx].
    apply rewrite_miss; [exact Hx |]. intros Hsame.
    destruct (rewrite_hit x Hx Hsame) as [-> _]. congruence.
  - intros x Hx. destruct (decide (us_id x = us_id s)) as [Hsame | Hdiff].
    + destruct (rewrite_hit x Hx Hsame) as [-> ->]. rewrite Huser.
      split; intros [Hu _]; congruence.
    + rewrite (rewrite_miss x Hx Hdiff). reflexivity.
Qed.

Lemma rewrite_active uid :
  active_of uid rows = [s] -> us_is_active s' = true ->
  active_of uid (map f rows) = [s'].
Proof.
  intros Hone Hact.
  assert (Hs : us_user_id s = uid /\ us_is_active s = true).
  { apply (elem_of_active uid rows s). rewrite Hone. apply list_elem_of_here. }
  unfold active_of in *. rewrite filter_map_same.
  - rewrite Hone. cbn [map].
    destruct (rewrite_hit s Hin eq_refl) as [_ ->]. reflexivity.
  - intros x Hx. destruct (decide (us_id x = us_id s)) as [Hsame | Hdiff].
    + destruct (rewrite_hit x Hx Hsame) as [-> ->]. rewrite Huser. tauto.
    + rewrite (rewrite_miss x Hx Hdiff). reflexivity.
Qed.

Lemma rewrite_inactive uid :
  active_of uid rows = [s] -> us_is_active s' = false ->
  active_of uid (map f rows) = [].
Proof.
  intros Hone Hact.
  apply filter_nothing. intros x Hx [Hu Ha].
  apply list_elem_of_fmap in Hx as (y & -> & Hy).
  destruct (decide (us_id y = us_id s)) as [Hsame | Hdiff].
  - destruct (rewrite_hit y Hy Hsame) as [_ Hf]. rewrite Hf in Ha. congruence.
  - rewrite (rewrite_miss y Hy Hdiff) in Hu, Ha.
    assert (Hmem : y ∈ active_of uid rows) by (apply elem_of_active; auto).
    rewrite Hone in Hmem. apply list_elem_of_singleton in Hmem. congruence.
Qed.

End Rewrite.

Lemma next_session_id_fresh p x :
  x ∈ view p -> us_id x < next_session_id p.
Proof.
  unfold next_session_id. generalize (view p) as l.
  induction l as [| a l IH]; intros Hx; [inversion Hx |].
  cbn [foldr]. apply elem_of_cons in Hx as [-> | Hx]; [lia |].
  specialize (IH Hx). lia.
Qed.

Lemma select_active_cases fault uid p :
  match select_active fault uid p with
  | Ok (Some s) => fault = None /\ active_of uid (view p) = [s] /\ s ∈ view p
                   /\ us_user_id s = uid
  | Ok None => fault = None /\ active_of uid (view p) = []
  | Raise e => fault = Some e
               \/ (2 <= length (active_of uid (view p)))%nat
  end.
Proof.
  unfold select_active, OrderOrchestrator.query.
  destruct fault as [e |]; cbn; [left; reflexivity |].
  destruct (active_of uid (view p)) as [| s [| s2 rest]] eqn:E; cbn.
  - auto.
  - assert (Hs : s ∈ active_of uid (view p)) by (rewrite E; apply list_elem_of_here).
    apply elem_of_active in Hs as [[Hu _] Hs]. auto.
  - right. lia.
Qed.

Lemma session_by_user_id_found uid p s :
  active_of uid (view p) = [s] ->
  session_by_user_id None uid p
  = Ok (Some {| sd_session_id := us_id s; sd_user_id := us_user_id s;
                sd_token := Some (us_token s);
                sd_trading_api_token := Some (us_trading_api_token s) |}).
Proof.
  intros H. unfold session_by_user_id, select_active, OrderOrchestrator.query.
  cbn [mbind res_bind]. rewrite H. reflexivity.
Qed.

Lemma session_by_user_id_none uid p :
  active_of uid (view p) = [] -> session_by_user_id None uid p = Ok None.
Proof.
  intros H. unfold session_by_user_id, select_active, OrderOrchestrator.query.
  cbn [mbind res_bind]. rewrite H. reflexivity.
Qed.

Lemma single_from uid rows rows' :
  (forall uid', uid' <> uid -> active_of uid' rows' = active_of uid' rows) ->
  (length (active_of uid rows') <= 1)%nat ->
  single rows -> single rows'.
Proof.
  intros Hothers Hone Hsingle u. destruct (decide (u = uid)) as [-> | Hne].
  - exact Hone.
  - rewrite (Hothers u Hne). apply Hsingle.
Qed.

(** The table after the create-or-update step of [login_store]. *)
Lemma upsert_existing rows s s' uid :
  keyed rows -> active_of uid rows = [s] -> s ∈ rows -> us_user_id s = uid ->
  us_id s' = us_id s -> us_user_id s' = us_user_id s -> us_is_active s' = true ->
  let rows' := map (fun x => if us_id x =? us_id s' then s' else x) rows in
  keyed rows'
  /\ (forall uid', uid' <> uid -> active_of uid' rows' = active_of uid' rows)
  /\ active_of uid rows' = [s'].
Proof.
  intros Hk Hone Hin Hu Hid Huser Hact rows'. subst rows'. repeat split.
  - eapply rewrite_keyed; eassumption.
  - intros uid' Hne. eapply rewrite_others; try eassumption. congruence.
  - eapply rewrite_active; eassumption.
Qed.

Lemma upsert_new p s' uid :
  keyed (view p) -> active_of uid (view p) = [] ->
  us_id s' = next_session_id p -> us_user_id s' = uid -> us_is_active s' = true ->
  keyed (view p ++ [s'])
  /\ (forall uid', uid' <> uid ->
        active_of uid' (view p ++ [s']) = active_of uid' (view p))
  /\ active_of uid (view p ++ [s']) = [s'].
Proof.
  intros Hk Hnone Hid Hu Hact. repeat split.
  - unfold keyed in *. rewrite fmap_app. apply NoDup_app. split; [exact Hk |].
    split; [| repeat constructor; intros H; inversion H].
    intros i Hi Hi'. apply list_elem_of_singleton in Hi'. subst i.
    apply list_elem_of_fmap in Hi as (x & Hx & Hin).
    pose proof (next_session_id_fresh p x Hin). lia.
  - intros uid' Hne. unfold active_of. rewrite filter_app.
    rewrite (filter_cons_False _ s') by (intros [H _]; congruence).
    rewrite filter_nil. apply app_nil_r.
  - unfold active_of in *. rewrite filter_app, Hnone.
    rewrite (filter_cons_True _ s') by auto. reflexivity.
Qed.

(** X19: The session-storing step of [login_user], from a table with
    nothing pending and distinct keys: nothing is left pending, the other
    users' active sessions are what they were, and a table with at most
    one active session per user stays so.  When it returns, the user has
    exactly one active session, with the id returned, the new tokens, a
    life of fifteen minutes from the first reading of the clock, and
    [get_session_by_user_id] finds it.  When it raises, the table is what
    it was, unless it was the refresh after a successful commit that
    failed. *)
Theorem login_store_keeps_one_session faults uid tok trading account now now' p :
  clean p -> keyed (stored p) ->
  let p' := fst (login_store faults uid tok trading account now now' p) in
  clean p' /\ keyed (stored p')
  /\ (forall uid', uid' <> uid ->
        active_of uid' (stored p') = active_of uid' (stored p))
  /\ (single (stored p) -> single (stored p'))
  /\ match snd (login_store faults uid tok trading account now now' p) with
     | Ok sid =>
         session_by_user_id None uid p'
         = Ok (Some {| sd_session_id := sid; sd_user_id := uid;
                       sd_token := Some tok;
                       sd_trading_api_token := Some trading |})
         /\ exists s,
              active_of uid (stored p') = [s]
              /\ us_id s = sid
              /\ expires_at s = Some (now + fifteen_minutes)
              /\ us_login_at s = now'
     | Raise e =>
         stored p' = stored p
         \/ (on_commit faults = None /\ on_refresh faults = Some e)
     end.
Proof.
  intros Hclean Hkeyed. destruct p as [rows vw].
  unfold clean in Hclean. cbn [view stored] in *. subst vw.
  assert (Hsame : keyed rows
                  /\ (forall uid', uid' <> uid ->
                        active_of uid' rows = active_of uid' rows)
                  /\ (single rows -> single rows)) by auto.
  unfold login_store.
  pose proof (select_active_cases (on_select faults) uid {| stored := rows; view := rows |}) as Hsel.
  destruct (select_active (on_select faults) uid {| stored := rows; view := rows |}) as [[existing |] | e];
    [| | cbn; destruct Hsame as (? & ? & ?); repeat split; auto].
  - destruct Hsel as (_ & Hone & Hin & Hu). cbn [view] in Hone, Hin.
    set (session := {| us_id := us_id existing; us_user_id := us_user_id existing;
                       us_token := tok; us_trading_api_token := trading;
                       us_trading_account_id := account; us_login_at := now';
                       expires_at := Some (now + fifteen_minutes);
                       us_is_active := true;
                       last_refresh_at := last_refresh_at existing |}).
    destruct (upsert_existing rows existing session uid
                Hkeyed Hone Hin Hu eq_refl eq_refl eq_refl) as (Hk' & Hothers & Hnew).
    cbn [write_session view stored]. unfold commit.
    destruct (on_commit faults) as [e |]; cbn [fst snd rollback stored view].
    + destruct Hsame as (? & ? & ?). repeat split; auto.
    + assert (Hsingle : single rows ->
                        single (map (fun x => if us_id x =? us_id session
                                              then session else x) rows)).
      { apply (single_from uid); [exact Hothers | rewrite Hnew; cbn; lia]. }
      destruct (on_refresh faults) as [e |]; cbn [fst snd rollback stored view].
      * repeat split; auto.
      * repeat split; auto.
        -- rewrite (session_by_user_id_found uid {| stored := _; view := _ |} session Hnew).
           cbn. rewrite Hu. reflexivity.
        -- exists session. split; [exact Hnew | auto].
  - destruct Hsel as (_ & Hnone).
    set (session := {| us_id := next_session_id {| stored := rows; view := rows |}; us_user_id := uid;
                       us_token := tok; us_trading_api_token := trading;
                       us_trading_account_id := account; us_login_at := now';
                       expires_at := Some (now + fifteen_minutes);
                       us_is_active := true; last_refresh_at := None |}).
    destruct (upsert_new {| stored := rows; view := rows |} session uid Hkeyed Hnone eq_refl eq_refl eq_refl)
      as (Hk' & Hothers & Hnew).
    cbn [view] in Hk', Hothers, Hnew.
    cbn [add_session view stored]. unfold commit.
    destruct (on_commit faults) as [e |]; cbn [fst snd rollback stored view].
    + destruct Hsame as (? & ? & ?). repeat split; auto.
    + assert (Hsingle : single rows -> single (rows ++ [session])).
      { apply (single_from uid); [exact Hothers | rewrite Hnew; cbn; lia]. }
      destruct (on_refresh faults) as [e |]; cbn [fst snd rollback stored view].
      * repeat split; auto.
      * repeat split; auto.
        -- rewrite (session_by_user_id_found uid {| stored := _; view := _ |} session Hnew).
           reflexivity.
        -- exists session. split; [exact Hnew | auto].
Qed.

(** Two users, each with an active session. *)
Definition row (uid : Z) (tok : string) : UserSession :=
  {| us_id := uid; us_user_id := uid; us_token := tok;
     us_trading_api_token := "tt"; us_trading_account_id := None;
     us_login_at := 0; expires_at := Some fifteen_minutes;
     us_is_active := true; last_refresh_at := None |}.

Definition two_rows : pool :=
  {| stored := [row 1 "t1"; row 2 "t2"]; view := [row 1 "t1"; row 2 "t2"] |}.

Lemma keyed_two_rows : keyed (stored two_rows).
Proof. apply (bool_decide_unpack _). vm_compute. exact I. Qed.

Lemma login_store_keeps_one_session_witness :
  clean (fst (login_store no_faults 3 "t3" "tt3" None 5 6 two_rows))
  /\ keyed (stored (fst (login_store no_faults 3 "t3" "tt3" None 5 6 two_rows))).
Proof.
  pose proof (login_store_keeps_one_session no_faults 3 "t3" "tt3" None 5 6
                two_rows eq_refl keyed_two_rows) as (Hc & Hk & _).
  exact (conj Hc Hk).
Defined.

Lemma select_active_found uid p s :
  active_of uid (view p) = [s] -> select_active None uid p = Ok (Some s).
Proof.
  intros H. unfold select_active, OrderOrchestrator.query.
  cbn [mbind res_bind]. rewrite H. reflexivity.
Qed.

Lemma select_active_none uid p :
  active_of uid (view p) = [] -> select_active None uid p = Ok None.
Proof.
  intros H. unfold select_active, OrderOrchestrator.query.
  cbn [mbind res_bind]. rewrite H. reflexivity.
Qed.

(** [session] with [is_active] cleared. *)
Definition deactivated (session : UserSession) : UserSession :=
  {| us_id := us_id session;
     us_user_id := us_user_id session;
     us_token := us_token session;
     us_trading_api_token := us_trading_api_token session;
     us_trading_account_id := us_trading_account_id session;
     us_login_at := us_login_at session;
     expires_at := expires_at session;
     us_is_active := false;
     last_refresh_at := last_refresh_at session |}.

(** X20: [logout_user] on a table with nothing pending and distinct keys
    leaves nothing pending, adds or removes no row, and leaves the other
    users' active sessions as they were.  It succeeds exactly when the
    look-up and the commit go through and the user has one active session,
    whatever the broker answered to the logout; then the user has no
    active session any more, [get_session_by_user_id] finds none, and a
    second logout reports that no active session was found.  When it
    fails, the table is what it was. *)
Theorem logout_deactivates_the_session faults upstream uid p :
  clean p -> keyed (stored p) ->
  let p' := fst (logout_user faults upstream uid p) in
  let r := snd (logout_user faults upstream uid p) in
  clean p' /\ keyed (stored p')
  /\ length (stored p') = length (stored p)
  /\ (forall uid', uid' <> uid ->
        active_of uid' (stored p') = active_of uid' (stored p))
  /\ (success r = true
      <-> on_select faults = None /\ on_commit faults = None
          /\ exists s, active_of uid (stored p) = [s])
  /\ (if success r
      then active_of uid (stored p') = []
           /\ session_by_user_id None uid p' = Ok None
           /\ forall faults' upstream',
                on_select faults' = None ->
                snd (logout_user faults' upstream' uid p')
                = failure (Some uid) "No active session found" None
      else stored p' = stored p).
Proof.
  intros Hclean Hkeyed. destruct p as [rows vw].
  unfold clean in Hclean. cbn [view stored] in *. subst vw.
  unfold logout_user, logout_body.
  pose proof (select_active_cases (on_select faults) uid
                {| stored := rows; view := rows |}) as Hsel.
  destruct (select_active (on_select faults) uid {| stored := rows; view := rows |})
    as [[session |] | e]; cbn [view] in Hsel.
  - destruct Hsel as (Hfault & Hone & Hin & Hu).
    fold (deactivated session).
    pose proof (rewrite_keyed rows (deactivated session) Hkeyed) as Hk'.
    pose proof (fun uid' (Hne : uid' <> uid) =>
                  rewrite_others rows session (deactivated session) Hkeyed Hin
                    eq_refl eq_refl uid' ltac:(congruence)) as Hothers.
    pose proof (rewrite_inactive rows session (deactivated session) Hkeyed Hin
                  eq_refl uid Hone eq_refl) as Hgone.
    cbn [write_session view stored]. unfold commit.
    destruct (on_commit faults) as [e |]; cbn [fst snd rollback stored view success failure].
    + repeat split; auto. all: try discriminate.
      intros (_ & H & _). discriminate.
    + repeat split; auto.
      * apply length_map.
      * eauto.
      * apply (session_by_user_id_none uid {| stored := _; view := _ |}), Hgone.
      * intros faults' upstream' Hsel'. rewrite Hsel'.
        rewrite (select_active_none uid {| stored := _; view := _ |} Hgone).
        reflexivity.
  - destruct Hsel as (Hfault & Hnone). cbn [fst snd success failure].
    repeat split; auto. all: try discriminate.
    intros (_ & _ & s & Hs). rewrite Hs in Hnone. discriminate.
  - cbn [fst snd success failure]. repeat split; auto. all: try discriminate.
    intros (Hs & _ & s & Hone). destruct Hsel as [Hsel | Hmany].
    + congruence.
    + rewrite Hone in Hmany. cbn in Hmany. lia.
Qed.

Lemma logout_deactivates_the_session_witness :
  success (snd (logout_user no_faults false 1 two_rows)) = true
  /\ active_of 1 (stored (fst (logout_user no_faults false 1 two_rows))) = []
  /\ active_of 2 (stored (fst (logout_user no_faults false 1 two_rows)))
     = [row 2 "t2"].
Proof.
  pose proof (logout_deactivates_the_session no_faults false 1 two_rows
                eq_refl keyed_two_rows) as (_ & _ & _ & Hothers & Hiff & Hthen).
  assert (Hs : success (snd (logout_user no_faults false 1 two_rows)) = true).
  { apply Hiff. repeat split. exists (row 1 "t1"). reflexivity. }
  cbv zeta in Hthen. rewrite Hs in Hthen. destruct Hthen as (Hgone & _).
  split; [exact Hs |]. split; [exact Hgone |].
  rewrite (Hothers 2 ltac:(discriminate)). reflexivity.
Defined.

(** X21: [refresh_token] for a user with one active session, when the
    look-up goes through: a [MatchTradeAPIError] of the broker hands over
    to [login_user]; any other exception, and a failed commit, give a
    failure and leave the table as it was; otherwise the call succeeds,
    and the session keeps its key, takes the tokens of the answer, keeping
    the stored one where the answer has none, is refreshed at the first
    reading of the clock and expires fifteen minutes after the second.
    The other users' active sessions are what they were. *)
Theorem refresh_token_outcomes faults api_refresh relogin uid now now' p s :
  clean p -> keyed (stored p) ->
  on_select faults = None -> active_of uid (stored p) = [s] ->
  let out := refresh_token faults api_refresh relogin uid now now' p in
  match api_refresh (us_token s) with
  | Raise (MatchTradeAPIError _) => out = relogin p
  | Raise e => out = (p, failure (Some uid) (str_exn e) None)
  | Ok response =>
      match on_commit faults with
      | Some (MatchTradeAPIError _) => out = relogin p
      | Some e => out = (p, failure (Some uid) (str_exn e) None)
      | None =>
          snd out = succeeded uid
          /\ clean (fst out) /\ keyed (stored (fst out))
          /\ (forall uid', uid' <> uid ->
                active_of uid' (stored (fst out)) = active_of uid' (stored p))
          /\ exists s',
               active_of uid (stored (fst out)) = [s']
               /\ us_id s' = us_id s
               /\ us_token s' = or_old (token response) (us_token s)
               /\ us_trading_api_token s'
                  = or_old (or_str (trading_api_token response)
                                   (tradingApiToken response))
                           (us_trading_api_token s)
               /\ last_refresh_at s' = Some now
               /\ expires_at s' = Some (now' + fifteen_minutes)
      end
  end.
Proof.
  intros Hclean Hkeyed Hsel Hone. destruct p as [rows vw].
  unfold clean in Hclean. cbn [view stored] in *. subst vw.
  assert (Hs : s ∈ rows /\ us_user_id s = uid /\ us_is_active s = true).
  { assert (H : s ∈ active_of uid rows) by (rewrite Hone; apply list_elem_of_here).
    apply elem_of_active in H. tauto. }
  destruct Hs as (Hin & Hu & Hact).
  unfold refresh_token, refresh_body. rewrite Hsel.
  rewrite (select_active_found uid {| stored := rows; view := rows |} s Hone).
  destruct (api_refresh (us_token s)) as [response | e]; [| destruct e; reflexivity].
  set (s' := {| us_id := us_id s; us_user_id := us_user_id s;
                us_token := or_old (token response) (us_token s);
                us_trading_api_token :=
                  or_old (or_str (trading_api_token response)
                                 (tradingApiToken response))
                         (us_trading_api_token s);
                us_trading_account_id := us_trading_account_id s;
                us_login_at := us_login_at s;
                expires_at := Some (now' + fifteen_minutes);
                us_is_active := us_is_active s;
                last_refresh_at := Some now |}).
  cbn [write_session view stored]. unfold commit.
  destruct (on_commit faults) as [e |]; [destruct e; reflexivity |].
  cbn [fst snd stored view].
  split; [reflexivity |]. split; [reflexivity |].
  split; [exact (rewrite_keyed rows s' Hkeyed) |]. split.
  - intros uid' Hne.
    apply (rewrite_others rows s s' Hkeyed Hin eq_refl eq_refl). congruence.
  - exists s'. split; [| repeat split].
    exact (rewrite_active rows s s' Hkeyed Hin eq_refl eq_refl uid Hone Hact).
Qed.

(** A broker that answers a refresh with a new token and no trading
    token. *)
Definition new_token_only (_ : string) : res login_response :=
  Ok {| token := Some "t1'"; trading_api_token := None; tradingApiToken := None;
        trading_account_id := None; tradingAccountId := None |}.

Lemma refresh_token_outcomes_witness :
  exists s',
    active_of 1 (stored (fst (refresh_token no_faults new_token_only
                                (fun p => (p, failure (Some 1) "" None))
                                1 7 8 two_rows))) = [s']
    /\ us_token s' = "t1'" /\ us_trading_api_token s' = "tt".
Proof.
  pose proof (refresh_token_outcomes no_faults new_token_only
                (fun p => (p, failure (Some 1) "" None)) 1 7 8 two_rows
                (row 1 "t1") eq_refl keyed_two_rows eq_refl eq_refl)
    as (_ & _ & _ & _ & s' & Hs' & _ & Htok & Htrading & _).
  exists s'. split; [exact Hs' |]. split; [exact Htok | exact Htrading].
Defined.

End PoolFacts.
